(** * preffixer: inject and remove a literal prefix in the files of a tree

    A shallow embedding of [main.go].  Go strings are byte sequences and
    are modelled by [string] (a list of 8-bit [ascii]); a Go result pair
    [(v, err)] is a pair whose second component is an [option error]
    ([None] is [nil]).  The file system and the standard output are
    threaded through every function as an explicit [World]. *)

From Stdlib Require Import Ascii String List Bool Arith Lia.
From stdpp Require Import base option list strings pretty gmap.

#[local] Arguments Ascii.eqb : simpl never.

(** ** Bytes and strings *)

(** The Go escape ['\n']. *)
Definition LF : string := String "010"%char "".

(** [s[n:]] for [n <= len(s)]. *)
Fixpoint drop_bytes (n : nat) (s : string) : string :=
  match n, s with
  | S n', String _ s' => drop_bytes n' s'
  | _, _ => s
  end.

(** [s[:n]] for [n <= len(s)]. *)
Fixpoint take_bytes (n : nat) (s : string) : string :=
  match n, s with
  | S n', String c s' => String c (take_bytes n' s')
  | _, _ => ""
  end.

(** Package [strings] of the Go library, as far as the program uses it. *)
Module strings.

(** [func HasPrefix(s, prefix string) bool]:
    [len(s) >= len(prefix) && s[:len(prefix)] == prefix]. *)
Definition HasPrefix (s prefix : string) : bool :=
  (String.length prefix <=? String.length s)%nat
  && String.eqb (take_bytes (String.length prefix) s) prefix.

(** [func TrimPrefix(s, prefix string) string]:
    [s[len(prefix):]] when [HasPrefix(s, prefix)], else [s]. *)
Definition TrimPrefix (s prefix : string) : string :=
  if HasPrefix s prefix then drop_bytes (String.length prefix) s else s.

End strings.

(** ** Errors *)

(** The error values the program can meet.  [PathError] is [*fs.PathError]
    (what [os] functions return), [ErrorString] a [fmt.Errorf] value,
    [Wrapped] the result of [errors.Wrap]; the last three are the sentinel
    errors of [path/filepath]. *)
Inductive error : Type :=
| PathError (op path msg : string)
| ErrorString (msg : string)
| Wrapped (cause : error) (msg : string)
| ErrBadPattern
| SkipDir
| SkipAll.

Global Instance error_eq_dec : EqDecision error.
Proof. solve_decision. Defined.

(** The method [Error() string]. *)
Fixpoint Error (e : error) : string :=
  match e with
  | PathError op path msg => op +:+ " " +:+ path +:+ ": " +:+ msg
  | ErrorString msg => msg
  | Wrapped cause msg => msg +:+ ": " +:+ Error cause
  | ErrBadPattern => "syntax error in pattern"
  | SkipDir => "skip this directory"
  | SkipAll => "skip everything and stop the walk"
  end.

Module errors.
(** [errors.Wrap] of github.com/pkg/errors: [nil] stays [nil]. *)
Definition Wrap (err : option error) (message : string) : option error :=
  match err with
  | None => None
  | Some e => Some (Wrapped e message)
  end.
End errors.

(** ** The world: files, directories, output *)

(** What [Lstat] and [readDirNames] show of a path: a non-directory, or a
    directory with the entries in the order [readDirNames] returns them
    (sorted by name).  A directory that cannot be listed is [Dir false _]. *)
#[warnings="-register-all"]
Inductive node : Type :=
| File
| Dir (readable : bool) (entries : list (string * node)).

(** The calls the program makes that touch files or the standard output, in
    the order they are made.  An event records the call, also when the call
    fails. *)
Inductive event : Type :=
| ReadFileEv (name : string)
| WriteFileEv (name data : string)
| PrintlnEv (line : string).

Global Instance event_eq_dec : EqDecision event.
Proof. solve_decision. Defined.

(** [disk] holds the content of every path that can be opened for reading
    (a path that is absent cannot be read); [readonly] the paths that cannot
    be opened for writing; [dirs] what is found at a root path; [trace] the
    calls made so far. *)
Record World : Type := mkWorld {
  disk : gmap string string;
  readonly : gset string;
  dirs : gmap string node;
  trace : list event
}.

Definition log (ev : event) (w : World) : World :=
  mkWorld (disk w) (readonly w) (dirs w) (trace w ++ [ev]).

Definition store (name data : string) (w : World) : World :=
  mkWorld (<[name := data]> (disk w)) (readonly w) (dirs w) (trace w).

(** Computations on the world. *)
Definition IO (A : Type) : Type := World -> A * World.

Global Instance IO_ret : MRet IO := fun A (a : A) w => (a, w).

Global Instance IO_bind : MBind IO :=
  fun A B (k : A -> IO B) (m : IO A) w => let (a, w') := m w in k a w'.

Module os.

(** [os.ReadFile]: the whole content of the named file. *)
Definition ReadFile (name : string) : IO (string * option error) :=
  fun w =>
    match disk w !! name with
    | Some data => ((data, None), log (ReadFileEv name) w)
    | None =>
        (("", Some (PathError "open" name "no such file or directory")),
         log (ReadFileEv name) w)
    end.

(** [os.Lstat]: what is at [name], without following a link. *)
Definition Lstat (name : string) (w : World) : option node * option error :=
  match dirs w !! name with
  | Some info => (Some info, None)
  | None => (None, Some (PathError "lstat" name "no such file or directory"))
  end.

(** [os.WriteFile]: replaces the content of the named file by [data]; a
    write that fails leaves the file as it was. *)
Definition WriteFile (name data : string) : IO (option error) :=
  fun w =>
    if decide (name ∈ readonly w)
    then (Some (PathError "open" name "permission denied"),
          log (WriteFileEv name data) w)
    else (None, store name data (log (WriteFileEv name data) w)).

End os.

Module fmt.
(** The operands of [Println], separated by single spaces. *)
Fixpoint sprintln (a : list string) : string :=
  match a with
  | [] => ""
  | [x] => x
  | x :: a' => x +:+ " " +:+ sprintln a'
  end.

(** [fmt.Println(a...)]: one line on the standard output. *)
Definition Println (a : list string) : IO unit :=
  fun w => (tt, log (PrintlnEv (sprintln a)) w).

Definition Errorf (msg : string) : option error := Some (ErrorString msg).
End fmt.

(** ** The prefix mutator *)

(** [func injectPrefix(path string, prefix string, lineEnd bool) (bool, error)] *)
Definition injectPrefix (path prefix : string) (lineEnd : bool)
  : IO (bool * option error) :=
  '(content, err) ← os.ReadFile path;
  match err with
  | Some e => mret (false, Some e)
  | None =>
      if strings.HasPrefix content prefix then mret (false, None)
      else
        let newContent := prefix in
        let newContent := if lineEnd then newContent +:+ LF else newContent in
        let newContent := newContent +:+ content in
        err ← os.WriteFile path newContent;
        match err with
        | Some e => mret (false, Some e)
        | None => mret (true, None)
        end
  end.

(** [func removePrefix(path string, prefix string, lineEnd bool) (bool, error)] *)
Definition removePrefix (path prefix : string) (lineEnd : bool)
  : IO (bool * option error) :=
  '(content, err) ← os.ReadFile path;
  match err with
  | Some e => mret (false, Some e)
  | None =>
      if negb (strings.HasPrefix content prefix) then mret (false, None)
      else
        let newStr := strings.TrimPrefix content prefix in
        let newStr := if lineEnd then strings.TrimPrefix newStr LF else newStr in
        err ← os.WriteFile path newStr;
        match err with
        | Some e => mret (false, Some e)
        | None => mret (true, None)
        end
  end.

(** ** Package [unicode/utf8], as far as [filepath.Match] uses it *)

Module utf8.

Definition RuneError : N := 65533.

Definition byte (c : ascii) : N := N_of_ascii c.

Definition between (lo hi b : N) : bool := (lo <=? b)%N && (b <=? hi)%N.

(** A continuation byte, [locb <= b <= hicb]. *)
Definition continuation (b : N) : bool := between 128 191 b.

(** [first[s0]]: the size of the encoding that starts with [s0] and the
    range accepted for its second byte; [None] for ASCII and for the
    bytes that start no encoding. *)
Definition first (s0 : N) : option (nat * (N * N)) :=
  if between 194 223 s0 then Some (2%nat, (128%N, 191%N))
  else if (s0 =? 224)%N then Some (3%nat, (160%N, 191%N))
  else if between 225 236 s0 then Some (3%nat, (128%N, 191%N))
  else if (s0 =? 237)%N then Some (3%nat, (128%N, 159%N))
  else if between 238 239 s0 then Some (3%nat, (128%N, 191%N))
  else if (s0 =? 240)%N then Some (4%nat, (144%N, 191%N))
  else if between 241 243 s0 then Some (4%nat, (128%N, 191%N))
  else if (s0 =? 244)%N then Some (4%nat, (128%N, 143%N))
  else None.

(** The rune of a two, three or four byte encoding. *)
Definition rune2 (s0 s1 : N) : N :=
  N.lor (N.shiftl (N.land s0 31) 6) (N.land s1 63).
Definition rune3 (s0 s1 s2 : N) : N :=
  N.lor (N.shiftl (N.land s0 15) 12)
    (N.lor (N.shiftl (N.land s1 63) 6) (N.land s2 63)).
Definition rune4 (s0 s1 s2 s3 : N) : N :=
  N.lor (N.shiftl (N.land s0 7) 18)
    (N.lor (N.shiftl (N.land s1 63) 12)
       (N.lor (N.shiftl (N.land s2 63) 6) (N.land s3 63))).

(** [func DecodeRuneInString(s string) (rune, int)]: the first rune of
    [s] and its width in bytes; [(RuneError, 0)] for the empty string and
    [(RuneError, 1)] for an encoding that is not valid. *)
Definition DecodeRuneInString (s : string) : N * nat :=
  match s with
  | "" => (RuneError, 0)
  | String c0 t1 =>
      let s0 := byte c0 in
      match first s0 with
      | None => if (s0 <? 128)%N then (s0, 1) else (RuneError, 1)
      | Some (sz, (lo, hi)) =>
          if (String.length s <? sz)%nat then (RuneError, 1)
          else
            match t1 with
            | "" => (RuneError, 1)
            | String c1 t2 =>
                let s1 := byte c1 in
                if negb (between lo hi s1) then (RuneError, 1)
                else if (sz <=? 2)%nat then (rune2 s0 s1, 2)
                else
                  match t2 with
                  | "" => (RuneError, 1)
                  | String c2 t3 =>
                      let s2 := byte c2 in
                      if negb (continuation s2) then (RuneError, 1)
                      else if (sz <=? 3)%nat then (rune3 s0 s1 s2, 3)
                      else
                        match t3 with
                        | "" => (RuneError, 1)
                        | String c3 _ =>
                            let s3 := byte c3 in
                            if negb (continuation s3) then (RuneError, 1)
                            else (rune4 s0 s1 s2 s3, 4)
                        end
                  end
            end
      end
  end.

End utf8.

(** ** Package [path/filepath] (Unix), as far as the program uses it *)

Module filepath.

Definition Separator : ascii := "/"%char.

Definition IsPathSeparator (c : ascii) : bool := Ascii.eqb c Separator.

(** [path] without its trailing separators (first loop of [Base]). *)
Fixpoint trim_trailing_seps (path : string) : string :=
  match path with
  | "" => ""
  | String c rest =>
      let t := trim_trailing_seps rest in
      if IsPathSeparator c && String.eqb t "" then "" else String c t
  end.

(** [path[i+1:]] for the last separator [path[i]], and [cur] when [path]
    has none (second loop of [Base]). *)
Fixpoint after_last_sep (path cur : string) : string :=
  match path with
  | "" => cur
  | String c rest =>
      if IsPathSeparator c then after_last_sep rest rest
      else after_last_sep rest cur
  end.

(** [func Base(path string) string]: the last element of [path]. *)
Definition Base (path : string) : string :=
  if String.eqb path "" then "."
  else
    let path := trim_trailing_seps path in
    let path := after_last_sep path path in
    if String.eqb path "" then String Separator "" else path.

(** The elements of a path between its separators. *)
Fixpoint elements (path : string) : list string :=
  match path with
  | "" => [""]
  | String c rest =>
      if IsPathSeparator c then "" :: elements rest
      else
        match elements rest with
        | e :: es => String c e :: es
        | [] => [String c ""]
        end
  end.

Fixpoint join_elements (es : list string) : string :=
  match es with
  | [] => ""
  | [e] => e
  | e :: es' => e +:+ String Separator (join_elements es')
  end.

(** The main loop of [Clean], element by element; [out] is the output
    so far, last element first.  An empty or [.] element is dropped; a
    [..] element removes the last element of the output when there is
    one to remove, is dropped at the root of a rooted path, and is kept
    otherwise. *)
Fixpoint clean_elements (rooted : bool) (es out : list string) : list string :=
  match es with
  | [] => rev out
  | e :: es' =>
      if String.eqb e "" || String.eqb e "." then clean_elements rooted es' out
      else if String.eqb e ".." then
        match out with
        | top :: out' =>
            if String.eqb top ".." then clean_elements rooted es' (e :: out)
            else clean_elements rooted es' out'
        | [] =>
            if rooted then clean_elements rooted es' out
            else clean_elements rooted es' [e]
        end
      else clean_elements rooted es' (e :: out)
  end.

(** [func Clean(path string) string]: the shortest equivalent path. *)
Definition Clean (path : string) : string :=
  match path with
  | "" => "."
  | String c _ =>
      let rooted := IsPathSeparator c in
      let out := join_elements (clean_elements rooted (elements path) []) in
      if rooted then String Separator out
      else if String.eqb out "" then "." else out
  end.

(** [func Join(elem ...string) string] for the two elements [Walk]
    passes: the elements that are not empty, joined by a separator and
    cleaned. *)
Definition Join (dir name : string) : string :=
  if negb (String.eqb dir "") then Clean (dir +:+ String Separator name)
  else if negb (String.eqb name "") then Clean name
  else "".

(** *** [Match] (match.go) *)

Definition byte_is (c lit : ascii) : bool := Ascii.eqb c lit.

(** [strings.Contains(name, string(Separator))] *)
Fixpoint Contains_sep (name : string) : bool :=
  match name with
  | "" => false
  | String c rest => IsPathSeparator c || Contains_sep rest
  end.

(** First loop of [scanChunk]: the leading stars. *)
Fixpoint skip_stars (pattern : string) : bool * string :=
  match pattern with
  | String c rest =>
      if byte_is c "*" then (true, snd (skip_stars rest)) else (false, pattern)
  | "" => (false, "")
  end.

(** Second loop of [scanChunk]: [(pattern[0:i], pattern[i:])] for the
    first star outside brackets. *)
Fixpoint scan (inrange : bool) (pattern : string) : string * string :=
  match pattern with
  | "" => ("", "")
  | String c rest =>
      if byte_is c "\" then
        match rest with
        | "" => (String c "", "")
        | String c' rest' =>
            let '(chunk, rest2) := scan inrange rest' in
            (String c (String c' chunk), rest2)
        end
      else if byte_is c "[" then
        let '(chunk, rest') := scan true rest in (String c chunk, rest')
      else if byte_is c "]" then
        let '(chunk, rest') := scan false rest in (String c chunk, rest')
      else if byte_is c "*" && negb inrange then ("", pattern)
      else
        let '(chunk, rest') := scan inrange rest in (String c chunk, rest')
  end.

(** [func scanChunk(pattern string) (star bool, chunk, rest string)] *)
Definition scanChunk (pattern : string) : bool * string * string :=
  let '(star, pattern) := skip_stars pattern in
  let '(chunk, rest) := scan false pattern in
  (star, chunk, rest).

(** [func getEsc(chunk string) (r rune, nchunk string, err error)] *)
Definition getEsc (chunk : string) : N * string * option error :=
  match chunk with
  | "" => (0%N, "", Some ErrBadPattern)
  | String c rest =>
      if byte_is c "-" || byte_is c "]" then (0%N, "", Some ErrBadPattern)
      else if byte_is c "\" && String.eqb rest "" then (0%N, "", Some ErrBadPattern)
      else
        let chunk := if byte_is c "\" then rest else chunk in
        let '(r, n) := utf8.DecodeRuneInString chunk in
        let err :=
          if (r =? utf8.RuneError)%N && (n =? 1)%nat
          then Some ErrBadPattern else None in
        let nchunk := drop_bytes n chunk in
        let err := if String.eqb nchunk "" then Some ErrBadPattern else err in
        (r, nchunk, err)
  end.

(** The loop of [matchChunk] over the ranges of a character class, one
    range for each unit of [fuel]; returns the chunk after the closing
    bracket and whether [r] is in one of the ranges. *)
Fixpoint parse_ranges (fuel : nat) (chunk : string) (r : N)
    (matched : bool) (nrange : nat) : string * bool * option error :=
  match fuel with
  | O => ("", false, Some ErrBadPattern)
  | S fuel' =>
      let closing :=
        match chunk with
        | String c _ => byte_is c "]" && (0 <? nrange)%nat
        | "" => false
        end in
      if closing then (drop_bytes 1 chunk, matched, None)
      else
        let '(lo, chunk, err) := getEsc chunk in
        match err with
        | Some e => ("", false, Some e)
        | None =>
            let '(hi, chunk, err) :=
              match chunk with
              | String c rest =>
                  if byte_is c "-" then getEsc rest else (lo, chunk, None)
              | "" => (lo, chunk, None)
              end in
            match err with
            | Some e => ("", false, Some e)
            | None =>
                let matched := ((lo <=? r)%N && (r <=? hi)%N) || matched in
                parse_ranges fuel' chunk r matched (S nrange)
            end
        end
  end.

(** The loop of [matchChunk], one operator of the chunk for each unit of
    [fuel]. *)
Fixpoint matchChunk_loop (fuel : nat) (chunk s : string) (failed : bool)
  : string * bool * option error :=
  match fuel with
  | O => ("", false, Some ErrBadPattern)
  | S fuel' =>
      match chunk with
      | "" => if failed then ("", false, None) else (s, true, None)
      | String c chunk' =>
          let failed := failed || String.eqb s "" in
          if byte_is c "[" then
            let '(r, s) :=
              if negb failed
              then let '(r, n) := utf8.DecodeRuneInString s in (r, drop_bytes n s)
              else (0%N, s) in
            let '(negated, chunk) :=
              match chunk' with
              | String c' rest => if byte_is c' "^" then (true, rest) else (false, chunk')
              | "" => (false, chunk')
              end in
            let '(chunk, matched, err) := parse_ranges fuel' chunk r false 0 in
            match err with
            | Some e => ("", false, Some e)
            | None =>
                let failed := failed || Bool.eqb matched negated in
                matchChunk_loop fuel' chunk s failed
            end
          else if byte_is c "?" then
            let '(failed, s) :=
              if negb failed
              then
                (match s with
                 | String c0 _ => IsPathSeparator c0
                 | "" => false
                 end,
                 drop_bytes (snd (utf8.DecodeRuneInString s)) s)
              else (failed, s) in
            matchChunk_loop fuel' chunk' s failed
          else
            let chunk := if byte_is c "\" then chunk' else chunk in
            match chunk with
            | "" => ("", false, Some ErrBadPattern)
            | String c chunk' =>
                let '(failed, s) :=
                  if negb failed
                  then
                    (match s with
                     | String c0 _ => negb (Ascii.eqb c c0)
                     | "" => false
                     end,
                     drop_bytes 1 s)
                  else (failed, s) in
                matchChunk_loop fuel' chunk' s failed
            end
      end
  end.

(** [func matchChunk(chunk, s string) (rest string, ok bool, err error)]:
    whether [chunk] matches the beginning of [s], and the rest of [s]. *)
Definition matchChunk (chunk s : string) : string * bool * option error :=
  matchChunk_loop (S (String.length chunk)) chunk s false.

(** What the loop of [Match] under a star ends with. *)
Inductive star_result : Type :=
| StarMatched (t : string)
| StarError (e : error)
| StarExhausted.

(** The loop of [Match] that looks for a match of [chunk] after skipping
    [i+1] bytes of [name], for each [i] up to the first separator;
    [last] is [len(pattern) == 0]. *)
Fixpoint star_loop (chunk : string) (last : bool) (name : string) : star_result :=
  match name with
  | "" => StarExhausted
  | String c rest =>
      if IsPathSeparator c then StarExhausted
      else
        let '(t, ok, err) := matchChunk chunk rest in
        if ok then
          if last && negb (String.eqb t "") then star_loop chunk last rest
          else StarMatched t
        else
          match err with
          | Some e => StarError e
          | None => star_loop chunk last rest
          end
  end.

(** The last loop of [Match]: the syntax of the rest of the pattern is
    checked before [false] is returned. *)
Fixpoint check_rest (fuel : nat) (pattern : string) : option error :=
  match fuel with
  | O => None
  | S fuel' =>
      if String.eqb pattern "" then None
      else
        let '(_, chunk, pattern) := scanChunk pattern in
        let '(_, _, err) := matchChunk chunk "" in
        match err with
        | Some e => Some e
        | None => check_rest fuel' pattern
        end
  end.

(** The loop [Pattern] of [Match], one chunk for each unit of [fuel]. *)
Fixpoint Match_loop (fuel : nat) (pattern name : string) : bool * option error :=
  match fuel with
  | O => (false, Some ErrBadPattern)
  | S fuel' =>
      if String.eqb pattern "" then (String.eqb name "", None)
      else
        let '(star, chunk, pattern) := scanChunk pattern in
        if star && String.eqb chunk "" then (negb (Contains_sep name), None)
        else
          let '(t, ok, err) := matchChunk chunk name in
          if ok && (String.eqb t "" || negb (String.eqb pattern ""))
          then Match_loop fuel' pattern t
          else
            match err with
            | Some e => (false, Some e)
            | None =>
                match
                  (if star then star_loop chunk (String.eqb pattern "") name
                   else StarExhausted)
                with
                | StarMatched t => Match_loop fuel' pattern t
                | StarError e => (false, Some e)
                | StarExhausted => (false, check_rest fuel' pattern)
                end
            end
  end.

(** [func Match(pattern, name string) (matched bool, err error)]; a
    pattern has at most [len(pattern)] chunks. *)
Definition Match (pattern name : string) : bool * option error :=
  Match_loop (S (String.length pattern)) pattern name.

(** *** [Walk] (path.go) *)

(** [info.IsDir()] *)
Definition IsDir (info : node) : bool :=
  match info with
  | Dir _ _ => true
  | File => false
  end.

Section Walk.

(** [St] holds the variables the callback closes over; a callback
    gets their values and returns the new ones with its error. *)
Context {St : Type}.

Definition WalkFunc : Type :=
  string -> option node -> option error -> St -> option error * St.

(** The loop of [walk] over the names of a directory; [walk] is the
    recursive call.  [lstat] of a name that was just listed succeeds, and
    gives the node of that name. *)
Fixpoint walk_names (walk : string -> node -> St -> option error * St)
    (path : string) (names : list (string * node)) (st : St)
  : option error * St :=
  match names with
  | [] => (None, st)
  | (name, fileInfo) :: names' =>
      let filename := Join path name in
      let '(err, st) := walk filename fileInfo st in
      match err with
      | Some e =>
          if negb (IsDir fileInfo) || negb (bool_decide (e = SkipDir))
          then (Some e, st)
          else walk_names walk path names' st
      | None => walk_names walk path names' st
      end
  end.

(** [func walk(path string, info fs.FileInfo, walkFn WalkFunc) error];
    [readDirNames] fails on a directory that is not readable. *)
Fixpoint walk (walkFn : WalkFunc) (path : string) (info : node) (st : St)
  : option error * St :=
  match info with
  | File => walkFn path (Some info) None st
  | Dir readable names =>
      let err :=
        if readable then None
        else Some (PathError "open" path "permission denied") in
      let '(err1, st) := walkFn path (Some info) err st in
      if bool_decide (err ≠ None) || bool_decide (err1 ≠ None)
      then (err1, st)
      else walk_names (walk walkFn) path names st
  end.

(** [func Walk(root string, fn WalkFunc) error] *)
Definition Walk (w : World) (root : string) (fn : WalkFunc) (st : St)
  : option error * St :=
  let '(info, err) := os.Lstat root w in
  let '(err, st) :=
    match err, info with
    | None, Some info => walk fn root info st
    | _, _ => fn root None err st
    end in
  if bool_decide (err = Some SkipDir) || bool_decide (err = Some SkipAll)
  then (None, st)
  else (err, st).

End Walk.

End filepath.

(** ** The commands *)

(** [type opts struct] *)
Record opts : Type := mkOpts {
  rootPath : string;
  prefix : string;
  pattern : string;
  withLineEnd : bool
}.

(** The flags of a [*cobra.Command] as [optsFlags] declares them: what
    [cmd.Flags().GetString] and [GetBool] return for each name. *)
Record FlagSet : Type := mkFlags {
  flag_pattern : string;
  flag_prefix : string;
  flag_prefix_file : string;
  flag_with_line_end : bool
}.


(** [for _, x := range l { body }] *)
Fixpoint for_range {A : Type} (l : list A) (body : A -> IO unit) : IO unit :=
  match l with
  | [] => mret tt
  | x :: l' => body x;; for_range l' body
  end.

(** [func loadFile(filePath string) (string, error)] *)
Definition loadFile (filePath : string) : IO (string * option error) :=
  if String.eqb filePath "" then mret ("", None)
  else
    '(content, err) ← os.ReadFile filePath;
    match err with
    | Some e => mret ("", errors.Wrap (Some e) "failed to read file content")
    | None => mret (content, None)
    end.

(** [func parseOpts(cmd *cobra.Command, args []string) (opts, error)] *)
Definition parseOpts (cmd : FlagSet) (args : list string) : IO (opts * option error) :=
  let none := mkOpts "" "" "" false in
  match args with
  | [] => mret (none, fmt.Errorf "requires 1 argument [ROOT_PATH]")
  | path :: _ =>
      if String.eqb path ""
      then mret (none, fmt.Errorf "requires 1 argument [ROOT_PATH]")
      else
        let prefix := flag_prefix cmd in
        '(prefix, err) ←
          (if String.eqb prefix "" then loadFile (flag_prefix_file cmd)
           else mret (prefix, None));
        match err with
        | Some e =>
            mret (none, errors.Wrap (Some e) "failed to load content of prefix file")
        | None =>
            if String.eqb prefix ""
            then mret (none,
                   fmt.Errorf "prefix not provided, specify --prefix or --prefix-file")
            else
              let pattern := flag_pattern cmd in
              let withLineEnd := flag_with_line_end cmd in
              mret (mkOpts path prefix pattern withLineEnd, None)
        end
  end.

(** The function literal [walkMatch] passes to [Walk]; it closes over
    [pattern] and [matches]. *)
Definition walkMatch_func (pattern : string) : @filepath.WalkFunc (list string) :=
  fun path info err matches =>
    match err with
    | Some e => (Some e, matches)
    | None =>
        if from_option filepath.IsDir false info then (None, matches)
        else
          let '(matched, err) := filepath.Match pattern (filepath.Base path) in
          match err with
          | Some e => (Some e, matches)
          | None =>
              if matched then (None, matches ++ [path])
              else (None, matches)
          end
    end.

(** [func walkMatch(root, pattern string) ([]string, error)] *)
Definition walkMatch (root pattern : string) : IO (list string * option error) :=
  fun w =>
    let '(err, matches) := filepath.Walk w root (walkMatch_func pattern) [] in
    match err with
    | Some e => (([], Some e), w)
    | None => ((matches, None), w)
    end.

(** [func getFilePaths(rootPath, pattern string) ([]string, error)] *)
Definition getFilePaths (rootPath pattern : string) : IO (list string * option error) :=
  '(files, err) ← walkMatch rootPath pattern;
  match err with
  | Some e => mret ([], errors.Wrap (Some e) "error walking root path")
  | None =>
      if (length files =? 0)%nat
      then
        fmt.Println ["No files matching the pattern found"];;
        mret ([], None)
      else
        fmt.Println ["Found " +:+ pretty (length files)
                     +:+ " files matching the pattern: "];;
        for_range files (fun f => fmt.Println ["  • " +:+ f]);;
        mret (files, None)
  end.

(** [func injectCmd(options opts) error] *)
Definition injectCmd (options : opts) : IO (option error) :=
  fmt.Println ["Prefix "; prefix options];;
  fmt.Println ["Pattern "; pattern options];;
  '(files, err) ← getFilePaths (rootPath options) (pattern options);
  match err with
  | Some e => mret (Some e)
  | None =>
      fmt.Println [];;
      fmt.Println ["Starting injection"];;
      fmt.Println [];;
      for_range files (fun f =>
        '(injected, err) ← injectPrefix f (prefix options) (withLineEnd options);
        match err with
        | Some e =>
            fmt.Println ["Error injecting prefix to file " +:+ f +:+ ": " +:+ Error e]
        | None => mret tt
        end;;
        if negb injected
        then fmt.Println ["File " +:+ f +:+ " already has the prefix"]
        else mret tt);;
      fmt.Println [];;
      fmt.Println ["Injection finished"];;
      mret None
  end.

(** [func removeCmd(options opts) error] *)
Definition removeCmd (options : opts) : IO (option error) :=
  '(files, err) ← getFilePaths (rootPath options) (pattern options);
  match err with
  | Some e => mret (Some e)
  | None =>
      fmt.Println [];;
      fmt.Println ["Starting removal"];;
      fmt.Println [];;
      for_range files (fun f =>
        '(removed, err) ← removePrefix f (prefix options) (withLineEnd options);
        match err with
        | Some e =>
            fmt.Println ["Error removing prefix from file " +:+ f +:+ ": " +:+ Error e]
        | None => mret tt
        end;;
        if negb removed
        then fmt.Println ["File " +:+ f +:+ " did not have the prefix"]
        else mret tt);;
      fmt.Println [];;
      fmt.Println ["Removal finished"];;
      mret None
  end.

(** The [RunE] function of [injectCommand]. *)
Definition injectCommand_RunE (cmd : FlagSet) (args : list string) : IO (option error) :=
  '(opts, err) ← parseOpts cmd args;
  match err with
  | Some e => mret (Some e)
  | None => injectCmd opts
  end.

(** The [RunE] function of [removeCommand]. *)
Definition removeCommand_RunE (cmd : FlagSet) (args : list string) : IO (option error) :=
  '(opts, err) ← parseOpts cmd args;
  match err with
  | Some e => mret (Some e)
  | None => removeCmd opts
  end.

(** ** The tables of the library's tests *)

(** [matchTests] of match_test.go: pattern, name, whether it matches and
    whether the pattern is bad. *)
Definition matchTests : list (string * string * bool * bool) :=
  [
    ("abc", "abc", true, false);
    ("*", "abc", true, false);
    ("*c", "abc", true, false);
    ("a*", "a", true, false);
    ("a*", "abc", true, false);
    ("a*", "ab/c", false, false);
    ("a*/b", "abc/b", true, false);
    ("a*/b", "a/c/b", false, false);
    ("a*b*c*d*e*/f", "axbxcxdxe/f", true, false);
    ("a*b*c*d*e*/f", "axbxcxdxexxx/f", true, false);
    ("a*b*c*d*e*/f", "axbxcxdxe/xxx/f", false, false);
    ("a*b*c*d*e*/f", "axbxcxdxexxx/fff", false, false);
    ("a*b?c*x", "abxbbxdbxebxczzx", true, false);
    ("a*b?c*x", "abxbbxdbxebxczzy", false, false);
    ("ab[c]", "abc", true, false);
    ("ab[b-d]", "abc", true, false);
    ("ab[e-g]", "abc", false, false);
    ("ab[^c]", "abc", false, false);
    ("ab[^b-d]", "abc", false, false);
    ("ab[^e-g]", "abc", true, false);
    ("a\*b", "a*b", true, false);
    ("a\*b", "ab", false, false);
    ("a?b", "a☺b", true, false);
    ("a[^a]b", "a☺b", true, false);
    ("a???b", "a☺b", false, false);
    ("a[^a][^a][^a]b", "a☺b", false, false);
    ("[a-ζ]*", "α", true, false);
    ("*[a-ζ]", "A", false, false);
    ("a?b", "a/b", false, false);
    ("a*b", "a/b", false, false);
    ("[\]a]", "]", true, false);
    ("[\-]", "-", true, false);
    ("[x\-]", "x", true, false);
    ("[x\-]", "-", true, false);
    ("[x\-]", "z", false, false);
    ("[\-x]", "x", true, false);
    ("[\-x]", "-", true, false);
    ("[\-x]", "a", false, false);
    ("[]a]", "]", false, true);
    ("[-]", "-", false, true);
    ("[x-]", "x", false, true);
    ("[x-]", "-", false, true);
    ("[x-]", "z", false, true);
    ("[-x]", "x", false, true);
    ("[-x]", "-", false, true);
    ("[-x]", "a", false, true);
    ("\", "a", false, true);
    ("[a-b-c]", "a", false, true);
    ("[", "a", false, true);
    ("[^", "a", false, true);
    ("[^bc", "a", false, true);
    ("a[", "a", false, true);
    ("a[", "ab", false, true);
    ("a[", "x", false, true);
    ("a/b[", "x", false, true);
    ("*x", "xxx", true, false)].

(** Whether [Match] gives the answer of the table. *)
Definition matchTest (t : string * string * bool * bool) : bool :=
  let '(pattern, name, matched, bad) := t in
  bool_decide (filepath.Match pattern name
               = (matched, if bad then Some ErrBadPattern else None)).

(** [cleantests] and [basetests] of path_test.go: path and result. *)
Definition cleantests : list (string * string) := [
  ("abc", "abc"); ("abc/def", "abc/def"); ("a/b/c", "a/b/c"); (".", "."); ("..", "..");
  ("../..", "../.."); ("../../abc", "../../abc"); ("/abc", "/abc"); ("/", "/");
  ("", ".");
  ("abc/", "abc"); ("abc/def/", "abc/def"); ("a/b/c/", "a/b/c"); ("./", "."); ("../", "..");
  ("../../", "../.."); ("/abc/", "/abc");
  ("abc//def//ghi", "abc/def/ghi"); ("abc//", "abc");
  ("abc/./def", "abc/def"); ("/./abc/def", "/abc/def"); ("abc/.", "abc");
  ("abc/def/ghi/../jkl", "abc/def/jkl"); ("abc/def/../ghi/../jkl", "abc/jkl");
  ("abc/def/..", "abc"); ("abc/def/../..", "."); ("/abc/def/../..", "/");
  ("abc/def/../../..", ".."); ("/abc/def/../../..", "/");
  ("abc/def/../../../ghi/jkl/../../../mno", "../../mno"); ("/../abc", "/abc");
  ("abc/./../def", "def"); ("abc//./../def", "def"); ("abc/../../././../def", "../../def") ].
Definition basetests : list (string * string) := [
  ("", "."); (".", "."); ("/.", "."); ("/", "/"); ("////", "/"); ("x/", "x"); ("abc", "abc");
  ("abc/def", "def"); ("a/b/.x", ".x"); ("a/b/c.", "c."); ("a/b/c.x", "c.x") ].

(** ** The tree of the tests *)

(** The directory [testdata] with the names the tests expect; the contents
    of the files are arbitrary. *)

Definition testdata : node :=
  Dir true
    [ ("file_1.txt", File);
      ("file_4.json", File);
      ("file_with_prefix", File);
      ("inner_dir",
        Dir true
          [ ("DONTREADME.md", File);
            ("file_2.txt", File);
            ("inner_inner_dir",
              Dir true [ ("file_3.txt", File); ("ignore_me.json", File) ]) ]) ].

Definition test_world : World :=
  mkWorld
    (list_to_map
       [ ("testdata/file_1.txt", "one");
         ("testdata/file_4.json", "{}");
         ("testdata/file_with_prefix", "Prefix from file" +:+ LF);
         ("testdata/inner_dir/DONTREADME.md", "# no");
         ("testdata/inner_dir/file_2.txt", "two");
         ("testdata/inner_dir/inner_inner_dir/file_3.txt", "three");
         ("testdata/inner_dir/inner_inner_dir/ignore_me.json", "[]") ])
    ∅
    {[ "testdata" := testdata ]}
    [].

(** ** Vocabulary of the statements *)

(** The content [injectPrefix] builds. *)
Definition injected (prefix : string) (lineEnd : bool) (content : string) : string :=
  prefix +:+ (if lineEnd then LF else "") +:+ content.

(** [s] without one leading line break, when it has one. *)
Definition without_line_break (s : string) : string :=
  match s with
  | String c rest => if Ascii.eqb c "010" then rest else s
  | "" => ""
  end.

(** [strings.HasSuffix(s, suffix)]:
    [len(s) >= len(suffix) && s[len(s)-len(suffix):] == suffix]. *)
Definition HasSuffix (s suffix : string) : bool :=
  (String.length suffix <=? String.length s)%nat
  && String.eqb (drop_bytes (String.length s - String.length suffix) s) suffix.

(** [entry path info p i]: in the tree [info] found at [path], the entry
    with path [p] is [i]; the tree itself is its first entry, and the path
    of a name in a directory is the one [Walk] builds. *)
Inductive entry : string -> node -> string -> node -> Prop :=
| entry_self (path : string) (info : node) : entry path info path info
| entry_child (path : string) (readable : bool) (names : list (string * node))
    (name : string) (child : node) (p : string) (i : node) :
    In (name, child) names ->
    entry (filepath.Join path name) child p i ->
    entry path (Dir readable names) p i.

(** The names of the files the trace reads, in order. *)
Fixpoint reads (tr : list event) : list string :=
  match tr with
  | [] => []
  | ReadFileEv name :: tr' => name :: reads tr'
  | _ :: tr' => reads tr'
  end.

(** The names of the files the trace writes, in order. *)
Fixpoint writes (tr : list event) : list string :=
  match tr with
  | [] => []
  | WriteFileEv name _ :: tr' => name :: writes tr'
  | _ :: tr' => writes tr'
  end.

(** ** Vocabulary of the proofs *)

(** An error of [Match] is [ErrBadPattern]. *)
Definition bad_pattern_or_nil (err : option error) : Prop :=
  err = None \/ err = Some ErrBadPattern.

(** A byte that stands for itself in a pattern. *)
Definition plain_byte (c : ascii) : bool :=
  negb (filepath.byte_is c "*") && negb (filepath.byte_is c "?")
  && negb (filepath.byte_is c "[") && negb (filepath.byte_is c "]")
  && negb (filepath.byte_is c "\").

Fixpoint plain (s : string) : bool :=
  match s with
  | "" => true
  | String c s' => plain_byte c && plain s'
  end.

(** The errors a walk of [walkMatch] can end with. *)
Definition walk_error (e : error) : Prop :=
  e = ErrBadPattern \/ exists p, e = PathError "open" p "permission denied".

(** What a walk that ends without error has added to [matches]. *)
Definition selected (pattern path : string) (info : node) (st st' : list string) : Prop :=
  exists new,
    st' = st ++ new
    /\ forall p, In p new
         <-> entry path info p File
             /\ filepath.Match pattern (filepath.Base p) = (true, None).

(** [w] with more calls at the end of its trace. *)
Definition add_trace (evs : list event) (w : World) : World :=
  mkWorld (disk w) (readonly w) (dirs w) (trace w ++ evs).

(** What a call on the file [f] may do to the world [w]: it reads [f]
    once, writes at most [f], and changes neither which paths can be read
    or written nor the directories. *)
Definition acts_on_one (f : string) (w w' : World) : Prop :=
  readonly w' = readonly w
  /\ dirs w' = dirs w
  /\ (forall p, p <> f -> disk w' !! p = disk w !! p)
  /\ (forall p, disk w' !! p = None <-> disk w !! p = None)
  /\ (f ∈ readonly w -> disk w' = disk w)
  /\ exists evs,
       trace w' = trace w ++ evs /\ reads evs = [f]
       /\ (writes evs = [] \/ writes evs = [f]).

(** Two worlds in which the same calls fail: the same paths can be read
    and written, and the files that cannot be written have the same
    content. *)
Definition same_access (w1 w2 : World) : Prop :=
  readonly w1 = readonly w2
  /\ (forall p, disk w1 !! p = None <-> disk w2 !! p = None)
  /\ (forall p, p ∈ readonly w1 -> disk w1 !! p = disk w2 !! p).

(** The body of the loop of [injectCmd] and of [removeCmd]: [op] is
    [injectPrefix] or [removePrefix] with the prefix and the flag,
    [error_line] and [skip_line] are the two messages. *)
Definition loop_body (op : string -> IO (bool * option error))
    (error_line : string -> error -> string) (skip_line : string -> string)
    (f : string) : IO unit :=
  '(changed, err) ← op f;
  match err with
  | Some e => fmt.Println [error_line f e]
  | None => mret tt
  end;;
  if negb changed then fmt.Println [skip_line f] else mret tt.

(** The lines the body prints after the call. *)
Definition body_lines (error_line : string -> error -> string)
    (skip_line : string -> string) (f : string) (r : bool * option error)
  : list event :=
  match snd r with
  | Some e => [PrintlnEv (error_line f e)]
  | None => []
  end ++ if negb (fst r) then [PrintlnEv (skip_line f)] else [].

(** The lines [getFilePaths] prints for the files it found. *)
Definition found_lines (files : list string) : list event :=
  if (length files =? 0)%nat
  then [PrintlnEv "No files matching the pattern found"]
  else PrintlnEv ("Found " +:+ pretty (length files) +:+ " files matching the pattern: ")
       :: map (fun f => PrintlnEv ("  • " +:+ f)) files.

(** The loops of [injectCmd] and of [removeCmd]. *)
Definition inject_loop (options : opts) : string -> IO unit :=
  loop_body (fun f => injectPrefix f (prefix options) (withLineEnd options))
    (fun f e => "Error injecting prefix to file " +:+ f +:+ ": " +:+ Error e)
    (fun f => "File " +:+ f +:+ " already has the prefix").

Definition remove_loop (options : opts) : string -> IO unit :=
  loop_body (fun f => removePrefix f (prefix options) (withLineEnd options))
    (fun f e => "Error removing prefix from file " +:+ f +:+ ": " +:+ Error e)
    (fun f => "File " +:+ f +:+ " did not have the prefix").

(** ** Worlds of the scenarios *)

(** One file [f] with the given content, writable, and nothing else. *)
Definition one_file (content : string) : World :=
  mkWorld {[ "f" := content ]} ∅ ∅ [].

(** A world for the error paths: the tree of the tests, in which
    [file_1.txt] cannot be written and [file_2.txt] cannot be read. *)
Definition faulty_world : World :=
  mkWorld
    (list_to_map
       [ ("testdata/file_1.txt", "one");
         ("testdata/inner_dir/inner_inner_dir/file_3.txt", "three") ])
    {[ "testdata/file_1.txt" ]}
    {[ "testdata" := testdata ]}
    [].

(** ** Vocabulary of the further properties *)

(** The content [removePrefix] writes for a content that starts with the
    prefix. *)
Definition removed (prefix : string) (lineEnd : bool) (content : string) : string :=
  let rest := drop_bytes (String.length prefix) content in
  if lineEnd then without_line_break rest else rest.

(** What [injectPrefix] on the file [f] does to the contents [d] of the
    files, when the paths of [ro] cannot be written. *)
Definition inject_on_disk (prefix : string) (lineEnd : bool) (ro : gset string)
    (d : gmap string string) (f : string) : gmap string string :=
  match d !! f with
  | Some c =>
      if strings.HasPrefix c prefix || bool_decide (f ∈ ro) then d
      else <[f := injected prefix lineEnd c]> d
  | None => d
  end.

(** What [removePrefix] on the file [f] does to the contents of the
    files. *)
Definition remove_on_disk (prefix : string) (lineEnd : bool) (ro : gset string)
    (d : gmap string string) (f : string) : gmap string string :=
  match d !! f with
  | Some c =>
      if strings.HasPrefix c prefix && negb (bool_decide (f ∈ ro))
      then <[f := removed prefix lineEnd c]> d
      else d
  | None => d
  end.

(** The paths [Walk] gives to its function for the entries of a tree that
    are not directories, in the order of the walk. *)
Fixpoint file_paths (path : string) (info : node) : list string :=
  match info with
  | File => [path]
  | Dir _ names =>
      (fix entries (names : list (string * node)) : list string :=
         match names with
         | [] => []
         | (name, child) :: names' =>
             file_paths (filepath.Join path name) child ++ entries names'
         end) names
  end.


(** The content of the path [p] after [inject_on_disk] on that path, and
    after [remove_on_disk] on it. *)
Definition injected_file (prefix : string) (lineEnd : bool) (ro : gset string)
    (p : string) (o : option string) : option string :=
  match o with
  | Some c =>
      if strings.HasPrefix c prefix || bool_decide (p ∈ ro) then Some c
      else Some (injected prefix lineEnd c)
  | None => None
  end.

Definition removed_file (prefix : string) (lineEnd : bool) (ro : gset string)
    (p : string) (o : option string) : option string :=
  match o with
  | Some c =>
      if strings.HasPrefix c prefix && negb (bool_decide (p ∈ ro))
      then Some (removed prefix lineEnd c)
      else Some c
  | None => None
  end.

(** The file [f] cannot be read or its content does not start with the
    prefix. *)
Definition lacks_prefix (prefix : string) (d : gmap string string) (f : string) : bool :=
  match d !! f with
  | Some c => negb (strings.HasPrefix c prefix)
  | None => true
  end.

(** The calls made between the world [w] and the later world [w']. *)
Definition new_events (w w' : World) : list event :=
  drop (length (trace w)) (trace w').


(** The file [f] can be read and its content starts with the prefix, and
    the file can be read and its content does not start with it. *)
Definition has_prefix (prefix : string) (d : gmap string string) (f : string) : bool :=
  match d !! f with
  | Some c => strings.HasPrefix c prefix
  | None => false
  end.

Definition has_no_prefix (prefix : string) (d : gmap string string) (f : string) : bool :=
  match d !! f with
  | Some c => negb (strings.HasPrefix c prefix)
  | None => false
  end.


(** * Proofs *)

(** ** The library functions on the library's tests *)

Example Match_on_matchTests : forallb matchTest matchTests = true.
Proof. vm_compute. reflexivity. Qed.

Example Clean_on_cleantests :
  forallb (fun '(path, result) => String.eqb (filepath.Clean path) result) cleantests = true.
Proof. vm_compute. reflexivity. Qed.

Example Base_on_basetests :
  forallb (fun '(path, result) => String.eqb (filepath.Base path) result) basetests = true.
Proof. vm_compute. reflexivity. Qed.

(** ** Strings *)

Section Strings.


Lemma append_cons (c : ascii) (s t : string) :
  String c s +:+ t = String c (s +:+ t).
Proof. reflexivity. Qed.

Lemma append_nil_r (s : string) : s +:+ "" = s.
Proof.
  induction s as [|c s IH]; [reflexivity | by rewrite append_cons, IH].
Qed.

Lemma append_assoc (s t u : string) : (s +:+ t) +:+ u = s +:+ (t +:+ u).
Proof.
  induction s as [|c s IH]; [reflexivity | by rewrite !append_cons, IH].
Qed.

Lemma length_append (s t : string) :
  String.length (s +:+ t) = String.length s + String.length t.
Proof.
  induction s as [|c s IH]; [reflexivity | rewrite append_cons; simpl; by rewrite IH].
Qed.

Lemma take_bytes_append (s t : string) : take_bytes (String.length s) (s +:+ t) = s.
Proof.
  induction s as [|c s IH]; [by destruct t|].
  rewrite append_cons; simpl. by rewrite IH.
Qed.

Lemma drop_bytes_append (s t : string) : drop_bytes (String.length s) (s +:+ t) = t.
Proof.
  induction s as [|c s IH]; [by destruct t|].
  rewrite append_cons; simpl. exact IH.
Qed.

Lemma take_drop_bytes (n : nat) (s : string) : take_bytes n s +:+ drop_bytes n s = s.
Proof.
  revert s; induction n as [|n IH]; intros [|c s]; simpl; try reflexivity.
  by rewrite append_cons, IH.
Qed.

Lemma HasPrefix_append (p t : string) : strings.HasPrefix (p +:+ t) p = true.
Proof.
  unfold strings.HasPrefix. rewrite take_bytes_append, String.eqb_refl, length_append.
  rewrite andb_true_r. apply Nat.leb_le. lia.
Qed.

Lemma HasPrefix_true (s p : string) :
  strings.HasPrefix s p = true -> s = p +:+ drop_bytes (String.length p) s.
Proof.
  unfold strings.HasPrefix. intros [_ H]%andb_true_iff.
  apply String.eqb_eq in H.
  rewrite <- H at 1. symmetry. apply take_drop_bytes.
Qed.

Lemma HasPrefix_iff (s p : string) :
  strings.HasPrefix s p = true <-> exists t, s = p +:+ t.
Proof.
  split.
  - intros H. eexists. by apply HasPrefix_true.
  - intros [t ->]. apply HasPrefix_append.
Qed.

Lemma HasPrefix_empty (s : string) : strings.HasPrefix s "" = true.
Proof. apply (HasPrefix_append "" s). Qed.

Lemma TrimPrefix_append (p t : string) : strings.TrimPrefix (p +:+ t) p = t.
Proof.
  unfold strings.TrimPrefix. by rewrite HasPrefix_append, drop_bytes_append.
Qed.

Lemma TrimPrefix_absent (s p : string) :
  strings.HasPrefix s p = false -> strings.TrimPrefix s p = s.
Proof. unfold strings.TrimPrefix. by intros ->. Qed.

Lemma TrimPrefix_LF (s : string) : strings.TrimPrefix s LF = without_line_break s.
Proof.
  destruct s as [|c s]; [reflexivity|].
  unfold strings.TrimPrefix, strings.HasPrefix, without_line_break, LF.
  destruct s as [|c' s]; simpl; by destruct (Ascii.eqb c "010").
Qed.

Lemma injected_has_prefix (p c : string) (lineEnd : bool) :
  strings.HasPrefix (injected p lineEnd c) p = true.
Proof. apply HasPrefix_append. Qed.

End Strings.

(** ** The prefix mutator, case by case *)

Section Mutator.

Variables (path prefix : string) (lineEnd : bool) (w : World).

Lemma injectPrefix_unreadable :
  disk w !! path = None ->
  injectPrefix path prefix lineEnd w
  = ((false, Some (PathError "open" path "no such file or directory")),
     log (ReadFileEv path) w).
Proof.
  intros H. unfold injectPrefix, mbind, IO_bind, os.ReadFile. by rewrite H.
Qed.

Lemma injectPrefix_present (content : string) :
  disk w !! path = Some content ->
  strings.HasPrefix content prefix = true ->
  injectPrefix path prefix lineEnd w = ((false, None), log (ReadFileEv path) w).
Proof.
  intros H Hp. unfold injectPrefix, mbind, IO_bind, os.ReadFile.
  by rewrite H, Hp.
Qed.

Lemma injectPrefix_absent (content : string) :
  disk w !! path = Some content ->
  strings.HasPrefix content prefix = false ->
  let new := injected prefix lineEnd content in
  let w' := log (WriteFileEv path new) (log (ReadFileEv path) w) in
  injectPrefix path prefix lineEnd w
  = if decide (path ∈ readonly w)
    then ((false, Some (PathError "open" path "permission denied")), w')
    else ((true, None), store path new w').
Proof.
  intros H Hp. unfold injectPrefix, mbind, IO_bind, os.ReadFile.
  rewrite H, Hp. unfold os.WriteFile, injected. simpl.
  assert ((if lineEnd then prefix +:+ LF else prefix) +:+ content
          = prefix +:+ (if lineEnd then LF else "") +:+ content) as ->.
  { destruct lineEnd; [apply append_assoc | reflexivity]. }
  by destruct (decide (path ∈ readonly w)).
Qed.

Lemma removePrefix_unreadable :
  disk w !! path = None ->
  removePrefix path prefix lineEnd w
  = ((false, Some (PathError "open" path "no such file or directory")),
     log (ReadFileEv path) w).
Proof.
  intros H. unfold removePrefix, mbind, IO_bind, os.ReadFile. by rewrite H.
Qed.

Lemma removePrefix_absent (content : string) :
  disk w !! path = Some content ->
  strings.HasPrefix content prefix = false ->
  removePrefix path prefix lineEnd w = ((false, None), log (ReadFileEv path) w).
Proof.
  intros H Hp. unfold removePrefix, mbind, IO_bind, os.ReadFile.
  by rewrite H, Hp.
Qed.

Lemma removePrefix_present (rest : string) :
  disk w !! path = Some (prefix +:+ rest) ->
  let new := if lineEnd then without_line_break rest else rest in
  let w' := log (WriteFileEv path new) (log (ReadFileEv path) w) in
  removePrefix path prefix lineEnd w
  = if decide (path ∈ readonly w)
    then ((false, Some (PathError "open" path "permission denied")), w')
    else ((true, None), store path new w').
Proof.
  intros H. unfold removePrefix, mbind, IO_bind, os.ReadFile.
  rewrite H, HasPrefix_append, TrimPrefix_append, TrimPrefix_LF.
  unfold os.WriteFile. simpl.
  by destruct (decide (path ∈ readonly w)).
Qed.

(** Neither operation changes which paths can be read or written, nor
    the directories. *)
Lemma injectPrefix_frame :
  let w' := snd (injectPrefix path prefix lineEnd w) in
  readonly w' = readonly w /\ dirs w' = dirs w
  /\ (forall p, p <> path -> disk w' !! p = disk w !! p)
  /\ (forall p, disk w' !! p = None <-> disk w !! p = None)
  /\ (path ∈ readonly w -> disk w' = disk w).
Proof.
  destruct (disk w !! path) as [content|] eqn:H.
  - destruct (strings.HasPrefix content prefix) eqn:Hp.
    + rewrite (injectPrefix_present content H Hp). simpl. tauto.
    + rewrite (injectPrefix_absent content H Hp).
      destruct (decide (path ∈ readonly w)); simpl; [tauto|].
      split_and!; try done.
      * intros p Hne. by rewrite lookup_insert_ne.
      * intros p. destruct (decide (p = path)) as [->|Hne].
        -- rewrite lookup_insert_eq, H. split; discriminate.
        -- by rewrite lookup_insert_ne.
  - rewrite (injectPrefix_unreadable H). simpl. tauto.
Qed.

Lemma removePrefix_frame :
  let w' := snd (removePrefix path prefix lineEnd w) in
  readonly w' = readonly w /\ dirs w' = dirs w
  /\ (forall p, p <> path -> disk w' !! p = disk w !! p)
  /\ (forall p, disk w' !! p = None <-> disk w !! p = None)
  /\ (path ∈ readonly w -> disk w' = disk w).
Proof.
  destruct (disk w !! path) as [content|] eqn:H.
  - destruct (strings.HasPrefix content prefix) eqn:Hp.
    + apply HasPrefix_true in Hp. rewrite Hp in H.
      rewrite (removePrefix_present _ H).
      destruct (decide (path ∈ readonly w)); simpl; [tauto|].
      split_and!; try done.
      * intros p Hne. by rewrite lookup_insert_ne.
      * intros p. destruct (decide (p = path)) as [->|Hne].
        -- rewrite lookup_insert_eq, H. split; discriminate.
        -- by rewrite lookup_insert_ne.
    + rewrite (removePrefix_absent content H Hp). simpl. tauto.
  - rewrite (removePrefix_unreadable H). simpl. tauto.
Qed.

End Mutator.

(** ** Option parsing *)

Section ParseOpts.

Variables (cmd : FlagSet) (w : World).

Lemma loadFile_effects (filePath : string) :
  let w' := snd (loadFile filePath w) in
  disk w' = disk w /\ readonly w' = readonly w /\ dirs w' = dirs w
  /\ (trace w' = trace w \/ trace w' = trace w ++ [ReadFileEv filePath]).
Proof.
  unfold loadFile. destruct (String.eqb filePath ""); simpl; [tauto|].
  unfold mbind, IO_bind, os.ReadFile.
  destruct (disk w !! filePath); simpl; tauto.
Qed.

(** Parsing the options writes no file and reads at most the prefix
    file. *)
Lemma parseOpts_effects (args : list string) :
  let w' := snd (parseOpts cmd args w) in
  disk w' = disk w /\ readonly w' = readonly w /\ dirs w' = dirs w
  /\ (trace w' = trace w \/ trace w' = trace w ++ [ReadFileEv (flag_prefix_file cmd)]).
Proof.
  unfold parseOpts. destruct args as [|path args]; simpl; [tauto|].
  destruct (String.eqb path ""); simpl; [tauto|].
  unfold mbind, IO_bind.
  destruct (String.eqb (flag_prefix cmd) "").
  - pose proof (loadFile_effects (flag_prefix_file cmd)) as H.
    destruct (loadFile (flag_prefix_file cmd) w) as [[p [e|]] w1]; simpl in *; [tauto|].
    destruct (String.eqb p ""); simpl; tauto.
  - simpl. destruct (String.eqb (flag_prefix cmd) ""); simpl; tauto.
Qed.

(** A successful parse yields a prefix that is not empty. *)
Lemma parseOpts_prefix_not_empty (args : list string) (o : opts) (w' : World) :
  parseOpts cmd args w = ((o, None), w') -> prefix o <> "".
Proof.
  unfold parseOpts. destruct args as [|path args]; [discriminate|].
  destruct (String.eqb path ""); [discriminate|].
  unfold mbind, IO_bind.
  destruct (if String.eqb (flag_prefix cmd) "" then _ else _) as [[p [e|]] w1];
    [discriminate|].
  destruct (String.eqb p "") eqn:E; [discriminate|].
  intros [= <- _]. simpl. by apply String.eqb_neq.
Qed.

Lemma parseOpts_prefix_flag (root : string) (rest : list string) :
  root <> "" ->
  flag_prefix cmd <> "" ->
  parseOpts cmd (root :: rest) w
  = ((mkOpts root (flag_prefix cmd) (flag_pattern cmd) (flag_with_line_end cmd), None), w).
Proof.
  intros Hr%String.eqb_neq Hp%String.eqb_neq. unfold parseOpts.
  rewrite Hr, Hp. unfold mbind, IO_bind, mret, IO_ret. by rewrite Hp.
Qed.

Lemma parseOpts_prefix_file (root : string) (rest : list string) (content : string) :
  root <> "" ->
  flag_prefix cmd = "" ->
  flag_prefix_file cmd <> "" ->
  disk w !! flag_prefix_file cmd = Some content ->
  content <> "" ->
  parseOpts cmd (root :: rest) w
  = ((mkOpts root content (flag_pattern cmd) (flag_with_line_end cmd), None),
     log (ReadFileEv (flag_prefix_file cmd)) w).
Proof.
  intros Hr%String.eqb_neq Hp Hf%String.eqb_neq Hd Hc%String.eqb_neq.
  unfold parseOpts. rewrite Hr, Hp. simpl.
  unfold loadFile, mbind, IO_bind, mret, IO_ret, os.ReadFile.
  by rewrite Hf, Hd, Hc.
Qed.

Lemma parseOpts_no_prefix (args : list string) :
  flag_prefix cmd = "" ->
  flag_prefix_file cmd = ""
  \/ disk w !! flag_prefix_file cmd = None
  \/ disk w !! flag_prefix_file cmd = Some "" ->
  exists e, snd (fst (parseOpts cmd args w)) = Some e.
Proof.
  intros Hp Hcases. unfold parseOpts.
  destruct args as [|path args]; [by eexists|].
  destruct (String.eqb path ""); [by eexists|].
  rewrite Hp. simpl. unfold loadFile, mbind, IO_bind, mret, IO_ret, os.ReadFile.
  destruct (String.eqb (flag_prefix_file cmd) "") eqn:Hf; [by eexists|].
  destruct Hcases as [H | [H | H]].
  - rewrite H in Hf. discriminate.
  - rewrite H. by eexists.
  - rewrite H. by eexists.
Qed.

End ParseOpts.

(** ** The errors of [Match] *)

Section MatchErrors.

Lemma getEsc_err (chunk : string) : bad_pattern_or_nil (snd (filepath.getEsc chunk)).
Proof.
  unfold filepath.getEsc, bad_pattern_or_nil.
  destruct chunk as [|c rest]; simpl; [tauto|].
  repeat match goal with
  | |- context [if ?b then _ else _] => destruct b; simpl; try tauto
  | |- context [let '(_, _) := ?x in _] => destruct x; simpl; try tauto
  end.
Qed.

Lemma parse_ranges_err (fuel : nat) (chunk : string) (r : N) (matched : bool) (nrange : nat) :
  bad_pattern_or_nil (snd (filepath.parse_ranges fuel chunk r matched nrange)).
Proof.
  revert chunk matched nrange.
  induction fuel as [|fuel IH]; intros chunk matched nrange; simpl; [right; reflexivity|].
  destruct (match chunk with "" => false | String c _ => _ end); simpl; [by left|].
  pose proof (getEsc_err chunk) as H1.
  destruct (filepath.getEsc chunk) as [[lo chunk1] [e|]]; simpl in *.
  { destruct H1 as [H1|H1]; [discriminate | by injection H1 as ->; right]. }
  assert (forall x : N * string * option error, bad_pattern_or_nil (snd x) ->
            bad_pattern_or_nil
              (snd (let '(hi, chunk0, err) := x in
                    match err with
                    | Some e => ("", false, Some e)
                    | None => filepath.parse_ranges fuel chunk0 r
                                ((N.leb lo r && N.leb r hi) || matched) (S nrange)
                    end))) as Hx.
  { intros [[hi c0] [e|]] Hb; simpl in *; [|apply IH].
    destruct Hb as [Hb|Hb]; [discriminate | by injection Hb as ->; right]. }
  destruct chunk1 as [|c rest].
  - apply (Hx (lo, "", None)). by left.
  - destruct (filepath.byte_is c "-").
    + apply Hx, getEsc_err.
    + apply (Hx (lo, String c rest, None)). by left.
Qed.

Lemma bad_pattern_some (e : error) :
  bad_pattern_or_nil (Some e) -> e = ErrBadPattern.
Proof. intros [H|H]; [discriminate | by injection H]. Qed.

Lemma matchChunk_loop_err (fuel : nat) (chunk s : string) (failed : bool) :
  bad_pattern_or_nil (snd (filepath.matchChunk_loop fuel chunk s failed)).
Proof.
  revert chunk s failed.
  induction fuel as [|fuel IH]; intros chunk s failed; simpl; [by right|].
  destruct chunk as [|c chunk']; [destruct failed; by left|].
  destruct (filepath.byte_is c "[").
  { destruct (if negb _ then _ else _) as [r s1].
    destruct (match chunk' with "" => _ | String _ _ => _ end) as [negated chunk1].
    pose proof (parse_ranges_err fuel chunk1 r false 0) as H.
    destruct (filepath.parse_ranges fuel chunk1 r false 0) as [[chunk2 matched] [e|]];
      simpl in *; [|apply IH].
    apply bad_pattern_some in H as ->. by right. }
  destruct (filepath.byte_is c "?").
  { destruct (if negb _ then _ else _) as [failed1 s1]. apply IH. }
  destruct (if filepath.byte_is c "\" then chunk' else String c chunk') as [|c1 chunk1];
    [by right|].
  destruct (if negb _ then _ else _) as [failed1 s1]. apply IH.
Qed.

Lemma matchChunk_err (chunk s : string) :
  bad_pattern_or_nil (snd (filepath.matchChunk chunk s)).
Proof. apply matchChunk_loop_err. Qed.

Lemma star_loop_err (chunk : string) (last : bool) (name : string) (e : error) :
  filepath.star_loop chunk last name = filepath.StarError e -> e = ErrBadPattern.
Proof.
  induction name as [|c rest IH]; simpl; [discriminate|].
  destruct (filepath.IsPathSeparator c); [discriminate|].
  pose proof (matchChunk_err chunk rest) as H.
  destruct (filepath.matchChunk chunk rest) as [[t ok] err]; simpl in *.
  destruct ok.
  - destruct (last && negb (String.eqb t "")); [exact IH | discriminate].
  - destruct err as [e'|]; [|exact IH].
    intros [= <-]. by apply bad_pattern_some.
Qed.

Lemma check_rest_err (fuel : nat) (pattern : string) :
  bad_pattern_or_nil (filepath.check_rest fuel pattern).
Proof.
  revert pattern. induction fuel as [|fuel IH]; intros pattern; simpl; [by left|].
  destruct (String.eqb pattern ""); [by left|].
  destruct (filepath.scanChunk pattern) as [[star chunk] rest].
  pose proof (matchChunk_err chunk "") as H.
  destruct (filepath.matchChunk chunk "") as [[t ok] [e|]]; simpl in *; [|apply IH].
  apply bad_pattern_some in H as ->. by right.
Qed.

Lemma Match_loop_err (fuel : nat) (pattern name : string) :
  bad_pattern_or_nil (snd (filepath.Match_loop fuel pattern name)).
Proof.
  revert pattern name.
  induction fuel as [|fuel IH]; intros pattern name; simpl; [by right|].
  destruct (String.eqb pattern ""); [by left|].
  destruct (filepath.scanChunk pattern) as [[star chunk] rest].
  destruct (star && String.eqb chunk ""); [by left|].
  pose proof (matchChunk_err chunk name) as H.
  destruct (filepath.matchChunk chunk name) as [[t ok] err]; simpl in *.
  destruct (ok && _); [apply IH|].
  destruct err as [e|]; [apply bad_pattern_some in H as ->; by right|].
  destruct star; simpl; [|apply check_rest_err].
  destruct (filepath.star_loop chunk (String.eqb rest "") name) as [t'|e|] eqn:Hs; simpl.
  - apply IH.
  - apply star_loop_err in Hs as ->. by right.
  - apply check_rest_err.
Qed.

(** [Match] returns no other error than [ErrBadPattern]. *)
Lemma Match_err (pattern name : string) (matched : bool) (e : error) :
  filepath.Match pattern name = (matched, Some e) -> e = ErrBadPattern.
Proof.
  intros H. pose proof (Match_loop_err (S (String.length pattern)) pattern name) as Hb.
  unfold filepath.Match in H. rewrite H in Hb. by apply bad_pattern_some.
Qed.

End MatchErrors.

(** ** The fuel of [Match] is enough *)

Section Fuel.

Lemma length_drop_bytes (n : nat) (s : string) :
  String.length (drop_bytes n s) = String.length s - n.
Proof.
  revert s. induction n as [|n IH]; intros [|c s]; simpl; try reflexivity.
  apply IH.
Qed.

Lemma DecodeRuneInString_width (c : ascii) (s : string) :
  1 <= snd (utf8.DecodeRuneInString (String c s)).
Proof.
  unfold utf8.DecodeRuneInString.
  repeat match goal with
  | |- context [match ?x with _ => _ end] => destruct x; simpl; try lia
  end.
Qed.

(** [getEsc] without error returns a shorter chunk. *)
Lemma getEsc_shorter (chunk : string) (r : N) (nchunk : string) :
  filepath.getEsc chunk = (r, nchunk, None) ->
  String.length nchunk < String.length chunk.
Proof.
  unfold filepath.getEsc. destruct chunk as [|c rest]; [discriminate|].
  destruct (filepath.byte_is c "-" || filepath.byte_is c "]"); [discriminate|].
  destruct (filepath.byte_is c "\" && String.eqb rest ""); [discriminate|].
  set (chunk := if filepath.byte_is c "\" then rest else String c rest).
  assert (String.length chunk <= String.length (String c rest)) as Hle.
  { unfold chunk. destruct (filepath.byte_is c "\"); simpl; lia. }
  destruct chunk as [|c1 chunk1] eqn:Hc.
  - simpl. discriminate.
  - pose proof (DecodeRuneInString_width c1 chunk1) as Hn.
    destruct (utf8.DecodeRuneInString (String c1 chunk1)) as [r1 n]. simpl in Hn.
    destruct (String.eqb (drop_bytes n (String c1 chunk1)) ""); [discriminate|].
    destruct (_ && _); [discriminate|].
    intros [= _ <-]. rewrite length_drop_bytes. simpl in *. lia.
Qed.

Lemma parse_ranges_fuel (fuel1 fuel2 : nat) (chunk : string) (r : N)
    (matched : bool) (nrange : nat) :
  String.length chunk < fuel1 ->
  String.length chunk < fuel2 ->
  filepath.parse_ranges fuel1 chunk r matched nrange
  = filepath.parse_ranges fuel2 chunk r matched nrange.
Proof.
  revert fuel2 chunk matched nrange.
  induction fuel1 as [|fuel1 IH]; intros fuel2 chunk matched nrange H1 H2; [lia|].
  destruct fuel2 as [|fuel2]; [lia|]. simpl.
  destruct (match chunk with "" => false | String c _ => _ end); [reflexivity|].
  destruct (filepath.getEsc chunk) as [[lo chunk1] [e|]] eqn:Hesc; [reflexivity|].
  apply getEsc_shorter in Hesc.
  destruct chunk1 as [|c rest]; [apply IH; simpl in *; lia|].
  destruct (filepath.byte_is c "-").
  - destruct (filepath.getEsc rest) as [[hi chunk2] [e|]] eqn:Hesc2; [reflexivity|].
    apply getEsc_shorter in Hesc2. apply IH; simpl in *; lia.
  - apply IH; simpl in *; lia.
Qed.

(** [parse_ranges] without error returns a shorter chunk. *)
Lemma parse_ranges_shorter (fuel : nat) (chunk : string) (r : N)
    (matched : bool) (nrange : nat) (chunk' : string) (matched' : bool) :
  filepath.parse_ranges fuel chunk r matched nrange = (chunk', matched', None) ->
  String.length chunk' < String.length chunk.
Proof.
  revert chunk matched nrange.
  induction fuel as [|fuel IH]; intros chunk matched nrange; simpl; [discriminate|].
  destruct (match chunk with "" => false | String c _ => _ end) eqn:Hclose.
  - destruct chunk as [|c rest]; [discriminate|]. intros [= <- _]. simpl. lia.
  - destruct (filepath.getEsc chunk) as [[lo chunk1] [e|]] eqn:Hesc; [discriminate|].
    apply getEsc_shorter in Hesc.
    destruct chunk1 as [|c rest]; [intros H%IH; simpl in *; lia|].
    destruct (filepath.byte_is c "-").
    + destruct (filepath.getEsc rest) as [[hi chunk2] [e|]] eqn:Hesc2; [discriminate|].
      apply getEsc_shorter in Hesc2. intros H%IH. simpl in *. lia.
    + intros H%IH. simpl in *. lia.
Qed.

Lemma matchChunk_loop_fuel (fuel1 fuel2 : nat) (chunk s : string) (failed : bool) :
  String.length chunk < fuel1 ->
  String.length chunk < fuel2 ->
  filepath.matchChunk_loop fuel1 chunk s failed
  = filepath.matchChunk_loop fuel2 chunk s failed.
Proof.
  revert fuel2 chunk s failed.
  induction fuel1 as [|fuel1 IH]; intros fuel2 chunk s failed H1 H2; [lia|].
  destruct fuel2 as [|fuel2]; [lia|]. simpl.
  destruct chunk as [|c chunk']; [reflexivity|]. simpl in H1, H2.
  destruct (filepath.byte_is c "[").
  { destruct (if negb _ then _ else _) as [r s1].
    destruct (match chunk' with "" => _ | String _ _ => _ end) as [negated chunk1] eqn:Hneg.
    assert (String.length chunk1 <= String.length chunk') as Hle.
    { destruct chunk' as [|c' rest]; [by injection Hneg as _ <-|].
      destruct (filepath.byte_is c' "^"); injection Hneg as _ <-; simpl; lia. }
    rewrite (parse_ranges_fuel fuel1 fuel2) by lia.
    destruct (filepath.parse_ranges fuel2 chunk1 r false 0)
      as [[chunk2 matched] [e|]] eqn:Hparse; [reflexivity|].
    apply parse_ranges_shorter in Hparse. apply IH; lia. }
  destruct (filepath.byte_is c "?").
  { destruct (if negb _ then _ else _) as [failed1 s1]. apply IH; lia. }
  destruct (filepath.byte_is c "\").
  - destruct chunk' as [|c1 chunk1]; [reflexivity|].
    destruct (if negb _ then _ else _) as [failed1 s1]. apply IH; simpl in *; lia.
  - destruct (if negb _ then _ else _) as [failed1 s1]. apply IH; lia.
Qed.

Lemma length_skip_stars (pattern : string) :
  let '(star, rest) := filepath.skip_stars pattern in
  String.length rest <= String.length pattern
  /\ (star = true -> String.length rest < String.length pattern)
  /\ (star = false -> rest = pattern).
Proof.
  induction pattern as [|c pattern IH]; simpl; [by split_and!|].
  destruct (filepath.skip_stars pattern) as [star rest].
  destruct (filepath.byte_is c "*"); simpl.
  - split_and!; [lia | lia | discriminate].
  - by split_and!.
Qed.

Lemma length_scan (inrange : bool) (pattern : string) :
  let '(chunk, rest) := filepath.scan inrange pattern in
  String.length chunk + String.length rest = String.length pattern.
Proof.
  assert (forall n pattern inrange, String.length pattern <= n ->
            let '(chunk, rest) := filepath.scan inrange pattern in
            String.length chunk + String.length rest = String.length pattern) as H.
  { clear. induction n as [|n IH]; intros [|c pattern] inrange Hn; simpl in *;
      try reflexivity; [lia|].
    destruct (filepath.byte_is c "\").
    { destruct pattern as [|c' pattern']; [reflexivity|].
      specialize (IH pattern' inrange). simpl in Hn.
      destruct (filepath.scan inrange pattern') as [chunk rest]. simpl. lia. }
    destruct (filepath.byte_is c "[").
    { specialize (IH pattern true).
      destruct (filepath.scan true pattern) as [chunk rest]. simpl. lia. }
    destruct (filepath.byte_is c "]").
    { specialize (IH pattern false).
      destruct (filepath.scan false pattern) as [chunk rest]. simpl. lia. }
    destruct (filepath.byte_is c "*" && negb inrange); [reflexivity|].
    specialize (IH pattern inrange).
    destruct (filepath.scan inrange pattern) as [chunk rest]. simpl. lia. }
  by apply (H (String.length pattern)).
Qed.

(** Every chunk takes at least one byte of a pattern that is not empty. *)
Lemma scanChunk_shorter (pattern : string) (star : bool) (chunk rest : string) :
  pattern <> "" ->
  filepath.scanChunk pattern = (star, chunk, rest) ->
  String.length rest < String.length pattern
  /\ String.length chunk <= String.length pattern.
Proof.
  intros Hne. destruct pattern as [|c pattern]; [done|].
  unfold filepath.scanChunk. cbn [filepath.skip_stars].
  destruct (filepath.byte_is c "*") eqn:Hc.
  - pose proof (length_skip_stars pattern) as Hs.
    destruct (filepath.skip_stars pattern) as [star' p']. cbn [snd].
    pose proof (length_scan false p') as Hl.
    destruct (filepath.scan false p') as [chunk' rest'].
    intros [= <- <- <-]. destruct Hs as (Hle & _). simpl. lia.
  - pose proof (length_scan false (String c pattern)) as Hl.
    destruct (filepath.scan false (String c pattern)) as [chunk' rest'] eqn:Hscan.
    intros [= <- <- <-].
    assert (1 <= String.length chunk') as Hc1.
    { simpl in Hscan. rewrite Hc in Hscan. simpl in Hscan.
      destruct (filepath.byte_is c "\").
      - destruct pattern as [|c' pattern']; [by injection Hscan as <- _|].
        destruct (filepath.scan false pattern'). injection Hscan as <- _. simpl. lia.
      - destruct (filepath.byte_is c "[").
        { destruct (filepath.scan true pattern). injection Hscan as <- _. simpl. lia. }
        destruct (filepath.byte_is c "]");
          destruct (filepath.scan false pattern); injection Hscan as <- _; simpl; lia. }
    simpl in *. lia.
Qed.

Lemma check_rest_fuel (fuel1 fuel2 : nat) (pattern : string) :
  String.length pattern < fuel1 ->
  String.length pattern < fuel2 ->
  filepath.check_rest fuel1 pattern = filepath.check_rest fuel2 pattern.
Proof.
  revert fuel2 pattern.
  induction fuel1 as [|fuel1 IH]; intros fuel2 pattern H1 H2; [lia|].
  destruct fuel2 as [|fuel2]; [lia|]. simpl.
  destruct (String.eqb pattern "") eqn:E; [reflexivity|].
  apply String.eqb_neq in E.
  destruct (filepath.scanChunk pattern) as [[star chunk] rest] eqn:Hscan.
  apply scanChunk_shorter in Hscan as [Hlt _]; [|done].
  destruct (filepath.matchChunk chunk "") as [[t ok] [e|]]; [reflexivity|].
  apply IH; lia.
Qed.

(** With more fuel than the pattern has bytes, the result of the loop of
    [Match] does not depend on the fuel: the fuel never runs out. *)
Lemma Match_loop_fuel (fuel1 fuel2 : nat) (pattern name : string) :
  String.length pattern < fuel1 ->
  String.length pattern < fuel2 ->
  filepath.Match_loop fuel1 pattern name = filepath.Match_loop fuel2 pattern name.
Proof.
  revert fuel2 pattern name.
  induction fuel1 as [|fuel1 IH]; intros fuel2 pattern name H1 H2; [lia|].
  destruct fuel2 as [|fuel2]; [lia|]. simpl.
  destruct (String.eqb pattern "") eqn:E; [reflexivity|].
  apply String.eqb_neq in E.
  destruct (filepath.scanChunk pattern) as [[star chunk] rest] eqn:Hscan.
  apply scanChunk_shorter in Hscan as [Hlt _]; [|done].
  destruct (star && String.eqb chunk ""); [reflexivity|].
  destruct (filepath.matchChunk chunk name) as [[t ok] err].
  destruct (ok && _); [apply IH; lia|].
  destruct err as [e|]; [reflexivity|].
  destruct (if star then _ else _) as [t'|e|].
  - apply IH; lia.
  - reflexivity.
  - f_equal. apply check_rest_fuel; lia.
Qed.

End Fuel.

(** ** Patterns of the form [*literal] *)

Section StarLiteral.

Lemma HasPrefix_cons (a b : ascii) (s p : string) :
  strings.HasPrefix (String a s) (String b p) = Ascii.eqb a b && strings.HasPrefix s p.
Proof.
  unfold strings.HasPrefix. simpl.
  destruct (Ascii.eqb a b); simpl; [reflexivity | apply andb_false_r].
Qed.

Lemma plain_byte_cases (c : ascii) :
  plain_byte c = true ->
  filepath.byte_is c "*" = false /\ filepath.byte_is c "?" = false
  /\ filepath.byte_is c "[" = false /\ filepath.byte_is c "]" = false
  /\ filepath.byte_is c "\" = false.
Proof.
  unfold plain_byte. rewrite !andb_true_iff, !negb_true_iff. tauto.
Qed.

(** Once the match has failed, a plain chunk is only read to its end. *)
Lemma matchChunk_loop_plain_failed (chunk s : string) (fuel : nat) :
  plain chunk = true ->
  String.length chunk < fuel ->
  filepath.matchChunk_loop fuel chunk s true = ("", false, None).
Proof.
  revert s fuel. induction chunk as [|c chunk IH]; intros s fuel Hp Hf.
  - destruct fuel; [lia | reflexivity].
  - destruct fuel as [|fuel]; [lia|]. simpl in Hp, Hf.
    apply andb_true_iff in Hp as [Hc Hp].
    apply plain_byte_cases in Hc as (_ & Hq & Hb & _ & He).
    simpl. rewrite Hb, Hq, He. simpl. apply IH; [done | lia].
Qed.

(** A plain chunk matches the beginning of [s] when [s] starts with it. *)
Lemma matchChunk_loop_plain (chunk s : string) (fuel : nat) :
  plain chunk = true ->
  String.length chunk < fuel ->
  filepath.matchChunk_loop fuel chunk s false
  = if strings.HasPrefix s chunk
    then (drop_bytes (String.length chunk) s, true, None)
    else ("", false, None).
Proof.
  revert s fuel. induction chunk as [|c chunk IH]; intros s fuel Hp Hf.
  - destruct fuel; [lia|]. rewrite HasPrefix_empty. by destruct s.
  - destruct fuel as [|fuel]; [lia|]. simpl in Hp, Hf.
    apply andb_true_iff in Hp as [Hc Hp].
    apply plain_byte_cases in Hc as (_ & Hq & Hb & _ & He).
    simpl. rewrite Hb, Hq, He.
    destruct s as [|c0 s]; simpl.
    + apply matchChunk_loop_plain_failed; [done | lia].
    + rewrite HasPrefix_cons, (Ascii.eqb_sym c c0).
      destruct (Ascii.eqb c0 c); simpl.
      * apply IH; [done | lia].
      * apply matchChunk_loop_plain_failed; [done | lia].
Qed.

Lemma matchChunk_plain (chunk s : string) :
  plain chunk = true ->
  filepath.matchChunk chunk s
  = if strings.HasPrefix s chunk
    then (drop_bytes (String.length chunk) s, true, None)
    else ("", false, None).
Proof. intros Hp. apply matchChunk_loop_plain; [done | lia]. Qed.

Lemma HasSuffix_append (pre suffix : string) : HasSuffix (pre +:+ suffix) suffix = true.
Proof.
  unfold HasSuffix. rewrite length_append.
  replace (String.length pre + String.length suffix - String.length suffix)
    with (String.length pre) by lia.
  rewrite drop_bytes_append, String.eqb_refl, andb_true_r.
  apply Nat.leb_le. lia.
Qed.

(** Under a last star, a plain chunk is found only at the end of the
    name. *)
Lemma star_loop_plain (chunk name t : string) :
  plain chunk = true ->
  filepath.star_loop chunk true name = filepath.StarMatched t ->
  t = "" /\ exists pre, name = pre +:+ chunk.
Proof.
  intros Hp. induction name as [|c rest IH]; simpl; [discriminate|].
  destruct (filepath.IsPathSeparator c); [discriminate|].
  rewrite (matchChunk_plain chunk rest Hp).
  destruct (strings.HasPrefix rest chunk) eqn:Hpre.
  - destruct (String.eqb (drop_bytes (String.length chunk) rest) "") eqn:Ht; simpl.
    + intros [= <-]. apply String.eqb_eq in Ht. split; [done|].
      exists (String c ""). apply HasPrefix_true in Hpre.
      rewrite Ht, append_nil_r in Hpre. by rewrite Hpre.
    + intros H. destruct (IH H) as [-> [pre ->]]. split; [done|].
      by exists (String c pre).
  - intros H. destruct (IH H) as [-> [pre ->]]. split; [done|].
    by exists (String c pre).
Qed.

Lemma scan_plain (s : string) : plain s = true -> filepath.scan false s = (s, "").
Proof.
  induction s as [|c s IH]; [reflexivity|]. simpl.
  intros [Hc Hp]%andb_true_iff.
  apply plain_byte_cases in Hc as (Hs & _ & Hb & Hr & He).
  rewrite He, Hb, Hr, Hs, (IH Hp). reflexivity.
Qed.

Lemma scanChunk_star_plain (c : ascii) (lit : string) :
  plain (String c lit) = true ->
  filepath.scanChunk (String "*" (String c lit)) = (true, String c lit, "").
Proof.
  intros Hp. unfold filepath.scanChunk.
  pose proof Hp as [Hc _]%andb_true_iff.
  apply plain_byte_cases in Hc as (Hs & _).
  cbn [filepath.skip_stars]. rewrite Hs.
  change (filepath.byte_is "*" "*") with true. cbn [snd].
  by rewrite (scan_plain _ Hp).
Qed.

(** A name that matches [*literal] ends with the literal. *)
Lemma Match_star_plain (lit name : string) :
  plain lit = true ->
  lit <> "" ->
  filepath.Match ("*" +:+ lit) name = (true, None) ->
  HasSuffix name lit = true.
Proof.
  intros Hp Hne. destruct lit as [|c lit]; [done|].
  unfold filepath.Match.
  change ("*" +:+ String c lit) with (String "*" (String c lit)).
  cbn [String.length filepath.Match_loop].
  change (String.eqb (String "*" (String c lit)) "") with false. cbv iota.
  rewrite (scanChunk_star_plain c lit Hp). cbv iota beta.
  change (String.eqb (String c lit) "") with false. cbn [andb].
  rewrite (matchChunk_plain (String c lit) name Hp).
  destruct (strings.HasPrefix name (String c lit)) eqn:Hpre.
  - cbv iota beta. rewrite orb_false_r, andb_true_l.
    destruct (String.eqb (drop_bytes _ name) "") eqn:Ht.
    + intros _. apply String.eqb_eq in Ht. apply HasPrefix_true in Hpre.
      rewrite Ht, append_nil_r in Hpre. rewrite Hpre.
      apply (HasSuffix_append "").
    + destruct (filepath.star_loop _ _ name) as [t|e|] eqn:Hs.
      * apply star_loop_plain in Hs as [-> [pre ->]]; [|done].
        intros _. apply HasSuffix_append.
      * discriminate.
      * discriminate.
  - cbv iota beta. cbn [andb].
    destruct (filepath.star_loop _ _ name) as [t|e|] eqn:Hs.
    + apply star_loop_plain in Hs as [-> [pre ->]]; [|done].
      intros _. apply HasSuffix_append.
    + discriminate.
    + discriminate.
Qed.

End StarLiteral.

Section StarComplete.





End StarComplete.

(** ** The file selector *)

Section NodeInduction.

Variable P : node -> Prop.
Hypothesis P_File : P File.
Hypothesis P_Dir :
  forall (readable : bool) (names : list (string * node)),
    Forall (fun e => P (snd e)) names -> P (Dir readable names).

(** Induction on a tree, with the hypothesis for every entry of a
    directory. *)
Fixpoint node_nested_ind (n : node) : P n :=
  match n with
  | File => P_File
  | Dir readable names =>
      P_Dir readable names
        ((fix entries (l : list (string * node)) : Forall (fun e => P (snd e)) l :=
            match l with
            | [] => List.Forall_nil _
            | e :: l' => List.Forall_cons _ e l' (node_nested_ind (snd e)) (entries l')
            end) names)
  end.

End NodeInduction.

Section Selector.

Variable pattern : string.

Lemma walk_error_not_skip (e : error) : walk_error e -> e <> SkipDir /\ e <> SkipAll.
Proof. intros [-> | [p ->]]; split; discriminate. Qed.

Lemma walkMatch_func_File (path : string) (matches : list string) :
  walkMatch_func pattern path (Some File) None matches
  = match filepath.Match pattern (filepath.Base path) with
    | (_, Some e) => (Some e, matches)
    | (true, None) => (None, matches ++ [path])
    | (false, None) => (None, matches)
    end.
Proof.
  unfold walkMatch_func. simpl.
  by destruct (filepath.Match pattern (filepath.Base path)) as [[] [e|]].
Qed.

Lemma walk_names_err (path : string) (names : list (string * node)) :
  Forall (fun e => forall p st e' st',
            filepath.walk (walkMatch_func pattern) p (snd e) st = (Some e', st') ->
            walk_error e') names ->
  forall (st st' : list string) (e : error),
    filepath.walk_names (filepath.walk (walkMatch_func pattern)) path names st = (Some e, st') ->
    walk_error e.
Proof.
  induction 1 as [|[name child] names Hc _ IH]; intros st st' e; simpl; [discriminate|].
  destruct (filepath.walk _ _ child st) as [[e1|] st1] eqn:Hw.
  - apply Hc in Hw. destruct (walk_error_not_skip e1 Hw) as [Hs _].
    rewrite (bool_decide_eq_false_2 _ Hs), orb_true_r. by intros [= <- _].
  - apply IH.
Qed.

Lemma walk_err (info : node) :
  forall (path : string) (st : list string) (e : error) (st' : list string),
    filepath.walk (walkMatch_func pattern) path info st = (Some e, st') -> walk_error e.
Proof.
  induction info as [|readable names IH] using node_nested_ind; intros path st e st'.
  - cbn [filepath.walk]. rewrite walkMatch_func_File.
    destruct (filepath.Match pattern (filepath.Base path)) as [m [e1|]] eqn:HM.
    + destruct m; intros [= <- _]; left; by eapply Match_err.
    + by destruct m.
  - simpl. destruct readable; simpl.
    + by apply walk_names_err.
    + intros [= <- _]. right. by eexists.
Qed.

Lemma entry_File (path p : string) (i : node) : entry path File p i <-> p = path /\ i = File.
Proof.
  split.
  - inversion 1; by subst.
  - intros [-> ->]. constructor.
Qed.

Lemma entry_Dir_File (path : string) (readable : bool) (names : list (string * node))
    (p : string) :
  entry path (Dir readable names) p File
  <-> exists name child, In (name, child) names /\ entry (filepath.Join path name) child p File.
Proof.
  split.
  - inversion 1; subst. eauto.
  - intros (name & child & Hin & He). by eapply entry_child.
Qed.

Lemma walk_names_ok (path : string) (names : list (string * node)) :
  Forall (fun e => forall p st st',
            filepath.walk (walkMatch_func pattern) p (snd e) st = (None, st') ->
            selected pattern p (snd e) st st') names ->
  forall (st st' : list string),
    filepath.walk_names (filepath.walk (walkMatch_func pattern)) path names st = (None, st') ->
    exists new,
      st' = st ++ new
      /\ forall p, In p new
           <-> (exists name child,
                  In (name, child) names
                  /\ entry (filepath.Join path name) child p File)
               /\ filepath.Match pattern (filepath.Base p) = (true, None).
Proof.
  induction 1 as [|[name child] names Hc _ IH]; intros st st'; simpl.
  - intros [= <-]. exists []. split; [by rewrite app_nil_r|].
    intros p. split; [done|]. by intros [(? & ? & [] & _) _].
  - destruct (filepath.walk _ _ child st) as [[e1|] st1] eqn:Hw.
    + apply walk_err in Hw. destruct (walk_error_not_skip e1 Hw) as [Hs _].
      rewrite (bool_decide_eq_false_2 _ Hs), orb_true_r. discriminate.
    + intros Hrest. apply Hc in Hw as (new1 & -> & H1).
      apply IH in Hrest as (new2 & -> & H2).
      exists (new1 ++ new2). split; [by rewrite app_assoc|].
      intros p. rewrite in_app_iff, H1, H2. split.
      * intros [[He HM] | [(n & c & Hin & He) HM]]; (split; [|done]).
        -- exists name, child. split; [by left | done].
        -- exists n, c. split; [by right | done].
      * intros [(n & c & [[= -> ->] | Hin] & He) HM].
        -- by left.
        -- right. split; [|done]. by exists n, c.
Qed.

Lemma walk_ok (info : node) :
  forall (path : string) (st st' : list string),
    filepath.walk (walkMatch_func pattern) path info st = (None, st') ->
    selected pattern path info st st'.
Proof.
  induction info as [|readable names IH] using node_nested_ind; intros path st st'.
  - cbn [filepath.walk]. rewrite walkMatch_func_File.
    destruct (filepath.Match pattern (filepath.Base path)) as [m [e1|]] eqn:HM;
      [by destruct m|].
    destruct m; intros [= <-].
    + exists [path]. split; [done|]. intros p. rewrite entry_File. simpl. split.
      * intros [<- | []]. by split.
      * intros [[-> _] _]. by left.
    + exists []. split; [by rewrite app_nil_r|]. intros p. rewrite entry_File.
      split; [done|]. intros [[-> _] H]. congruence.
  - simpl. destruct readable; simpl; [|discriminate].
    intros Hw. apply (walk_names_ok path names IH) in Hw as (new & -> & H).
    exists new. split; [done|]. intros p. by rewrite entry_Dir_File.
Qed.

(** [walkMatch] leaves the world as it is. *)
Lemma walkMatch_world (root : string) (w : World) : snd (walkMatch root pattern w) = w.
Proof.
  unfold walkMatch.
  by destruct (filepath.Walk w root (walkMatch_func pattern) []) as [[e|] matches].
Qed.

(** The paths of a walk without error: the non-directories of the tree at
    [root] whose base name matches. *)
Lemma walkMatch_ok (root : string) (w : World) (files : list string) :
  fst (walkMatch root pattern w) = (files, None) ->
  exists info,
    dirs w !! root = Some info
    /\ forall p, In p files
         <-> entry root info p File
             /\ filepath.Match pattern (filepath.Base p) = (true, None).
Proof.
  unfold walkMatch, filepath.Walk, os.Lstat.
  destruct (dirs w !! root) as [info|]; simpl.
  - destruct (filepath.walk _ root info []) as [[e|] matches] eqn:Hw.
    + apply walk_err in Hw. destruct (walk_error_not_skip e Hw) as [Hd Ha].
      rewrite bool_decide_eq_false_2, bool_decide_eq_false_2 by congruence.
      discriminate.
    + simpl. intros [= <-]. apply walk_ok in Hw as (new & -> & H).
      exists info. split; [done|]. exact H.
  - discriminate.
Qed.

(** The walk fails when nothing is found at [root], and when [root] is a
    directory that cannot be listed. *)
Lemma walkMatch_no_root (root : string) (w : World) :
  dirs w !! root = None ->
  walkMatch root pattern w
  = (([], Some (PathError "lstat" root "no such file or directory")), w).
Proof.
  intros H. unfold walkMatch, filepath.Walk, os.Lstat. by rewrite H.
Qed.

Lemma walkMatch_unreadable_root (root : string) (w : World) (names : list (string * node)) :
  dirs w !! root = Some (Dir false names) ->
  walkMatch root pattern w
  = (([], Some (PathError "open" root "permission denied")), w).
Proof.
  intros H. unfold walkMatch, filepath.Walk, os.Lstat. by rewrite H.
Qed.

End Selector.

(** ** Traces *)

Section Traces.

Lemma reads_app (t1 t2 : list event) : reads (t1 ++ t2) = reads t1 ++ reads t2.
Proof. induction t1 as [|[] t1 IH]; simpl; by rewrite ?IH. Qed.

Lemma writes_app (t1 t2 : list event) : writes (t1 ++ t2) = writes t1 ++ writes t2.
Proof. induction t1 as [|[] t1 IH]; simpl; by rewrite ?IH. Qed.

Lemma reads_prints {A : Type} (line : A -> string) (l : list A) :
  reads (map (fun x => PrintlnEv (line x)) l) = [].
Proof. by induction l. Qed.

Lemma writes_prints {A : Type} (line : A -> string) (l : list A) :
  writes (map (fun x => PrintlnEv (line x)) l) = [].
Proof. by induction l. Qed.

Lemma log_add_trace (ev : event) (w : World) : log ev w = add_trace [ev] w.
Proof. reflexivity. Qed.

Lemma add_trace_add_trace (evs1 evs2 : list event) (w : World) :
  add_trace evs2 (add_trace evs1 w) = add_trace (evs1 ++ evs2) w.
Proof. unfold add_trace. simpl. by rewrite app_assoc. Qed.

Lemma trace_add_trace (evs : list event) (w : World) :
  trace (add_trace evs w) = trace w ++ evs.
Proof. reflexivity. Qed.

Lemma disk_add_trace (evs : list event) (w : World) : disk (add_trace evs w) = disk w.
Proof. reflexivity. Qed.

Lemma add_trace_nil (w : World) : add_trace [] w = w.
Proof. destruct w. unfold add_trace. simpl. by rewrite app_nil_r. Qed.

Lemma for_range_prints {A : Type} (line : A -> string) (l : list A) (w : World) :
  for_range l (fun x => fmt.Println [line x]) w
  = (tt, add_trace (map (fun x => PrintlnEv (line x)) l) w).
Proof.
  revert w. induction l as [|x l IH]; intros w; simpl.
  - by rewrite add_trace_nil.
  - unfold mbind, IO_bind, fmt.Println. simpl. rewrite IH, log_add_trace.
    by rewrite add_trace_add_trace.
Qed.

Lemma same_access_refl (w : World) : same_access w w.
Proof. by split_and!. Qed.

Lemma same_access_add_trace (evs : list event) (w0 w : World) :
  same_access w0 w -> same_access w0 (add_trace evs w).
Proof. done. Qed.

Lemma same_access_step (f : string) (w0 w w' : World) :
  same_access w0 w -> acts_on_one f w w' -> same_access w0 w'.
Proof.
  intros (Hro & Hnone & Hsame) (Hro' & _ & Hother & Hnone' & Hfro & _).
  split_and!.
  - congruence.
  - intros p. by rewrite Hnone, Hnone'.
  - intros p Hp. rewrite (Hsame p Hp).
    destruct (decide (p = f)) as [->|Hne].
    + rewrite Hfro; [done | by rewrite <- Hro].
    + by rewrite Hother.
Qed.

Lemma acts_on_one_add_trace (f : string) (evs : list event) (w w' : World) :
  acts_on_one f w w' -> reads evs = [] -> writes evs = [] ->
  acts_on_one f w (add_trace evs w').
Proof.
  intros (Hro & Hd & Hother & Hnone & Hfro & (evs0 & Ht & Hr & Hw)) Hre Hwe.
  split_and!; try done.
  exists (evs0 ++ evs). simpl. rewrite Ht, reads_app, writes_app, Hr, Hre, Hwe, !app_nil_r.
  split_and!; [by rewrite app_assoc | done | done].
Qed.

Lemma injectPrefix_acts (path P : string) (lineEnd : bool) (w : World) :
  acts_on_one path w (snd (injectPrefix path P lineEnd w)).
Proof.
  pose proof (injectPrefix_frame path P lineEnd w) as (Hro & Hd & Ho & Hn & Hf).
  split_and!; try done.
  destruct (disk w !! path) as [content|] eqn:H.
  - destruct (strings.HasPrefix content P) eqn:HP.
    + rewrite (injectPrefix_present path P lineEnd w content H HP).
      exists [ReadFileEv path]. by split_and!; [| |left].
    + rewrite (injectPrefix_absent path P lineEnd w content H HP).
      exists [ReadFileEv path; WriteFileEv path (injected P lineEnd content)].
      destruct (decide (path ∈ readonly w)); simpl; rewrite <- app_assoc;
        by split_and!; [| |right].
  - rewrite (injectPrefix_unreadable path P lineEnd w H).
    exists [ReadFileEv path]. by split_and!; [| |left].
Qed.

Lemma removePrefix_acts (path P : string) (lineEnd : bool) (w : World) :
  acts_on_one path w (snd (removePrefix path P lineEnd w)).
Proof.
  pose proof (removePrefix_frame path P lineEnd w) as (Hro & Hd & Ho & Hn & Hf).
  split_and!; try done.
  destruct (disk w !! path) as [content|] eqn:H.
  - destruct (strings.HasPrefix content P) eqn:HP.
    + apply HasPrefix_true in HP. rewrite HP in H.
      rewrite (removePrefix_present path P lineEnd w _ H).
      eexists [ReadFileEv path; WriteFileEv path _].
      destruct (decide (path ∈ readonly w)); simpl; rewrite <- app_assoc;
        by split_and!; [| |right].
    + rewrite (removePrefix_absent path P lineEnd w content H HP).
      exists [ReadFileEv path]. by split_and!; [| |left].
  - rewrite (removePrefix_unreadable path P lineEnd w H).
    exists [ReadFileEv path]. by split_and!; [| |left].
Qed.

(** Whether a call fails is the same in two worlds with the same
    access. *)
Lemma injectPrefix_error_stable (path P : string) (lineEnd : bool) (w1 w2 : World) :
  same_access w1 w2 ->
  snd (fst (injectPrefix path P lineEnd w1)) = snd (fst (injectPrefix path P lineEnd w2)).
Proof.
  intros (Hro & Hnone & Hsame).
  destruct (disk w1 !! path) as [c1|] eqn:H1.
  - destruct (disk w2 !! path) as [c2|] eqn:H2; [|apply Hnone in H2; congruence].
    destruct (decide (path ∈ readonly w1)) as [Hin|Hout].
    + assert (c1 = c2) as <- by (specialize (Hsame path Hin); congruence).
      destruct (strings.HasPrefix c1 P) eqn:HP.
      * by rewrite (injectPrefix_present path P lineEnd w1 c1),
                   (injectPrefix_present path P lineEnd w2 c1).
      * rewrite (injectPrefix_absent path P lineEnd w1 c1),
                (injectPrefix_absent path P lineEnd w2 c1) by done.
        rewrite <- Hro. by destruct (decide (path ∈ readonly w1)).
    + destruct (strings.HasPrefix c1 P) eqn:HP1; destruct (strings.HasPrefix c2 P) eqn:HP2;
        rewrite ?(injectPrefix_present path P lineEnd w1 c1 H1 HP1),
                ?(injectPrefix_present path P lineEnd w2 c2 H2 HP2),
                ?(injectPrefix_absent path P lineEnd w1 c1 H1 HP1),
                ?(injectPrefix_absent path P lineEnd w2 c2 H2 HP2);
        rewrite <- ?Hro; by destruct (decide (path ∈ readonly w1)).
  - pose proof H1 as H2. apply Hnone in H2.
    by rewrite (injectPrefix_unreadable path P lineEnd w1 H1),
               (injectPrefix_unreadable path P lineEnd w2 H2).
Qed.

Lemma removePrefix_error_stable (path P : string) (lineEnd : bool) (w1 w2 : World) :
  same_access w1 w2 ->
  snd (fst (removePrefix path P lineEnd w1)) = snd (fst (removePrefix path P lineEnd w2)).
Proof.
  intros (Hro & Hnone & Hsame).
  assert (forall w c, disk w !! path = Some c ->
            snd (fst (removePrefix path P lineEnd w))
            = if strings.HasPrefix c P && bool_decide (path ∈ readonly w)
              then Some (PathError "open" path "permission denied") else None) as Hcase.
  { intros w c H. destruct (strings.HasPrefix c P) eqn:HP.
    - apply HasPrefix_true in HP. rewrite HP in H.
      rewrite (removePrefix_present path P lineEnd w _ H).
      destruct (decide (path ∈ readonly w)).
      + by rewrite bool_decide_eq_true_2.
      + by rewrite bool_decide_eq_false_2.
    - by rewrite (removePrefix_absent path P lineEnd w c H HP). }
  destruct (disk w1 !! path) as [c1|] eqn:H1.
  - destruct (disk w2 !! path) as [c2|] eqn:H2; [|apply Hnone in H2; congruence].
    rewrite (Hcase w1 c1 H1), (Hcase w2 c2 H2), <- Hro.
    destruct (decide (path ∈ readonly w1)) as [Hin|Hout].
    + assert (c1 = c2) as <- by (specialize (Hsame path Hin); congruence). done.
    + rewrite bool_decide_eq_false_2 by done. by rewrite !andb_false_r.
  - pose proof H1 as H2. apply Hnone in H2.
    by rewrite (removePrefix_unreadable path P lineEnd w1 H1),
               (removePrefix_unreadable path P lineEnd w2 H2).
Qed.

End Traces.

(** ** The loop over the files *)

Section Loop.

Variable op : string -> IO (bool * option error).
Variable error_line : string -> error -> string.
Variable skip_line : string -> string.

Hypothesis op_acts : forall f w, acts_on_one f w (snd (op f w)).
Hypothesis op_error_stable :
  forall f w1 w2, same_access w1 w2 -> snd (fst (op f w1)) = snd (fst (op f w2)).

Abbreviation body := (loop_body op error_line skip_line).
Abbreviation lines := (body_lines error_line skip_line).

Lemma loop_body_run (f : string) (w : World) :
  snd (body f w) = add_trace (lines f (fst (op f w))) (snd (op f w)).
Proof.
  unfold loop_body, body_lines, mbind, IO_bind, mret, IO_ret, fmt.Println.
  destruct (op f w) as [[changed [e|]] w1]; destruct changed; simpl;
    rewrite ?log_add_trace, ?add_trace_add_trace, ?add_trace_nil; reflexivity.
Qed.

Lemma body_lines_quiet (f : string) (r : bool * option error) :
  reads (lines f r) = [] /\ writes (lines f r) = [].
Proof. unfold body_lines. by destruct r as [[] [e|]]. Qed.

Lemma loop_body_acts (f : string) (w : World) : acts_on_one f w (snd (body f w)).
Proof.
  rewrite loop_body_run.
  destruct (body_lines_quiet f (fst (op f w))) as [Hr Hw].
  by apply acts_on_one_add_trace.
Qed.

(** Every file of the list is read, in order, whatever the calls return;
    only files of the list are written or changed; access stays the
    same. *)
Lemma loop_effects (files : list string) (w : World) :
  let w' := snd (for_range files body w) in
  same_access w w'
  /\ (forall p, ~ In p files -> disk w' !! p = disk w !! p)
  /\ exists evs,
       trace w' = trace w ++ evs /\ reads evs = files
       /\ forall p, In p (writes evs) -> In p files.
Proof.
  revert w. induction files as [|f files IH]; intros w; simpl.
  - split_and!; [apply same_access_refl | done |].
    exists []. by rewrite app_nil_r.
  - unfold mbind, IO_bind.
    pose proof (loop_body_acts f w) as Hact.
    destruct (body f w) as [[] w1]; simpl in *.
    destruct (IH w1) as (Hsame & Hdisk & evs2 & Ht2 & Hr2 & Hw2).
    pose proof (same_access_step f w w w1 (same_access_refl w) Hact) as Hs1.
    destruct Hact as (Hro & Hd & Hother & Hnone & Hfro & (evs1 & Ht1 & Hr1 & Hw1)).
    split_and!.
    + destruct Hs1 as (A1 & A2 & A3), Hsame as (B1 & B2 & B3). split_and!.
      * congruence.
      * intros p. by rewrite A2, B2.
      * intros p Hp. rewrite (A3 p Hp). apply B3. by rewrite <- A1.
    + intros p Hp. rewrite Hdisk by tauto. apply Hother. intros ->. tauto.
    + exists (evs1 ++ evs2). rewrite Ht2, Ht1, reads_app, writes_app, Hr1, Hr2.
      split_and!; [by rewrite app_assoc | done |].
      intros p [Hp|Hp]%in_app_iff.
      * destruct Hw1 as [Hw1|Hw1]; rewrite Hw1 in Hp; [done|].
        destruct Hp as [<- | []]. by left.
      * right. by apply Hw2.
Qed.

(** When the call on a file of the list fails, its error is printed. *)
Lemma loop_prints_errors (files : list string) (w0 w : World) (f : string) (e : error) :
  same_access w0 w ->
  In f files ->
  snd (fst (op f w0)) = Some e ->
  In (PrintlnEv (error_line f e)) (trace (snd (for_range files body w))).
Proof.
  revert w. induction files as [|g files IH]; intros w Hsame Hin He; [done|].
  simpl. unfold mbind, IO_bind.
  pose proof (loop_body_acts g w) as Hact.
  pose proof (loop_body_run g w) as Hrun.
  destruct (body g w) as [[] w1]; simpl in *.
  destruct (loop_effects files w1) as (_ & _ & evs & Ht & _).
  destruct Hin as [-> | Hin].
  - rewrite Ht, Hrun. simpl. rewrite !in_app_iff. left. right.
    unfold body_lines. rewrite <- (op_error_stable f w0 w Hsame), He.
    rewrite in_app_iff. left. by left.
  - apply IH; [|done|done]. by eapply same_access_step.
Qed.

End Loop.

(** ** The commands, as one run *)

Section Commands.

Lemma walkMatch_dirs (root pattern : string) (w1 w2 : World) :
  dirs w1 = dirs w2 -> fst (walkMatch root pattern w1) = fst (walkMatch root pattern w2).
Proof.
  intros H. unfold walkMatch.
  assert (filepath.Walk w1 root (walkMatch_func pattern) []
          = filepath.Walk w2 root (walkMatch_func pattern) []) as ->.
  { unfold filepath.Walk, os.Lstat. by rewrite H. }
  by destruct (filepath.Walk w2 root (walkMatch_func pattern) []) as [[e|] matches].
Qed.

Lemma found_lines_quiet (files : list string) :
  reads (found_lines files) = [] /\ writes (found_lines files) = [].
Proof.
  unfold found_lines. destruct (length files =? 0)%nat; simpl; [done|].
  by rewrite reads_prints, writes_prints.
Qed.

Lemma getFilePaths_run (root pattern : string) (w : World) :
  getFilePaths root pattern w
  = match fst (walkMatch root pattern w) with
    | (_, Some e) => (([], Some (Wrapped e "error walking root path")), w)
    | (files, None) => ((files, None), add_trace (found_lines files) w)
    end.
Proof.
  unfold getFilePaths, mbind, IO_bind, found_lines.
  pose proof (walkMatch_world pattern root w) as Hw.
  destruct (walkMatch root pattern w) as [[files [e|]] w1]; simpl in *; subst w1; [done|].
  destruct (length files =? 0)%nat eqn:E.
  - apply Nat.eqb_eq, length_zero_iff_nil in E as ->. reflexivity.
  - unfold fmt.Println at 1.
    rewrite (for_range_prints (fun f => "  • " +:+ f)).
    unfold mret, IO_ret. by rewrite !log_add_trace, !add_trace_add_trace.
Qed.

Lemma injectCmd_run (options : opts) (w : World) :
  let head := [PrintlnEv (fmt.sprintln ["Prefix "; prefix options]);
               PrintlnEv (fmt.sprintln ["Pattern "; pattern options])] in
  injectCmd options w
  = match fst (walkMatch (rootPath options) (pattern options) w) with
    | (_, Some e) => (Some (Wrapped e "error walking root path"), add_trace head w)
    | (files, None) =>
        (None,
         add_trace [PrintlnEv ""; PrintlnEv "Injection finished"]
           (snd (for_range files (inject_loop options)
                   (add_trace (head ++ found_lines files
                               ++ [PrintlnEv ""; PrintlnEv "Starting injection"; PrintlnEv ""])
                      w))))
    end.
Proof.
  intros head. unfold injectCmd, mbind, IO_bind, fmt.Println at 1 2.
  rewrite getFilePaths_run.
  rewrite (walkMatch_dirs _ _ _ w) by reflexivity.
  destruct (fst (walkMatch (rootPath options) (pattern options) w)) as [files [e|]].
  - unfold mret, IO_ret. by rewrite !log_add_trace, !add_trace_add_trace.
  - unfold fmt.Println, mret, IO_ret. cbn [fmt.sprintln].
    rewrite !log_add_trace, !add_trace_add_trace.
    change (fun f : string => _) with (inject_loop options).
    set (start := add_trace (head ++ _) w).
    change (add_trace ([PrintlnEv _] ++ _) w) with start.
    destruct (for_range files (inject_loop options) start) as [[] w1].
    by rewrite !log_add_trace, !add_trace_add_trace.
Qed.

Lemma removeCmd_run (options : opts) (w : World) :
  removeCmd options w
  = match fst (walkMatch (rootPath options) (pattern options) w) with
    | (_, Some e) => (Some (Wrapped e "error walking root path"), w)
    | (files, None) =>
        (None,
         add_trace [PrintlnEv ""; PrintlnEv "Removal finished"]
           (snd (for_range files (remove_loop options)
                   (add_trace (found_lines files
                               ++ [PrintlnEv ""; PrintlnEv "Starting removal"; PrintlnEv ""])
                      w))))
    end.
Proof.
  unfold removeCmd, mbind, IO_bind.
  rewrite getFilePaths_run.
  destruct (fst (walkMatch (rootPath options) (pattern options) w)) as [files [e|]].
  - reflexivity.
  - unfold fmt.Println, mret, IO_ret. cbn [fmt.sprintln].
    rewrite !log_add_trace, !add_trace_add_trace.
    change (fun f : string => _) with (remove_loop options).
    set (start := add_trace (found_lines files ++ _) w).
    change (add_trace (found_lines files ++ _) w) with start.
    destruct (for_range files (remove_loop options) start) as [[] w1].
    by rewrite !log_add_trace, !add_trace_add_trace.
Qed.

Lemma inject_loop_effects (options : opts) (files : list string) (w : World) :
  let w' := snd (for_range files (inject_loop options) w) in
  same_access w w'
  /\ (forall p, ~ In p files -> disk w' !! p = disk w !! p)
  /\ exists evs,
       trace w' = trace w ++ evs /\ reads evs = files
       /\ forall p, In p (writes evs) -> In p files.
Proof. apply loop_effects. intros f w1. apply injectPrefix_acts. Qed.

Lemma remove_loop_effects (options : opts) (files : list string) (w : World) :
  let w' := snd (for_range files (remove_loop options) w) in
  same_access w w'
  /\ (forall p, ~ In p files -> disk w' !! p = disk w !! p)
  /\ exists evs,
       trace w' = trace w ++ evs /\ reads evs = files
       /\ forall p, In p (writes evs) -> In p files.
Proof. apply loop_effects. intros f w1. apply removePrefix_acts. Qed.

Lemma inject_loop_prints_errors (options : opts) (files : list string) (w0 w : World)
    (f : string) (e : error) :
  same_access w0 w ->
  In f files ->
  snd (fst (injectPrefix f (prefix options) (withLineEnd options) w0)) = Some e ->
  In (PrintlnEv ("Error injecting prefix to file " +:+ f +:+ ": " +:+ Error e))
     (trace (snd (for_range files (inject_loop options) w))).
Proof.
  apply (loop_prints_errors
           (fun f => injectPrefix f (prefix options) (withLineEnd options))
           (fun f e => "Error injecting prefix to file " +:+ f +:+ ": " +:+ Error e)).
  - intros g w1. apply injectPrefix_acts.
  - intros g w1 w2. apply injectPrefix_error_stable.
Qed.

Lemma remove_loop_prints_errors (options : opts) (files : list string) (w0 w : World)
    (f : string) (e : error) :
  same_access w0 w ->
  In f files ->
  snd (fst (removePrefix f (prefix options) (withLineEnd options) w0)) = Some e ->
  In (PrintlnEv ("Error removing prefix from file " +:+ f +:+ ": " +:+ Error e))
     (trace (snd (for_range files (remove_loop options) w))).
Proof.
  apply (loop_prints_errors
           (fun f => removePrefix f (prefix options) (withLineEnd options))
           (fun f e => "Error removing prefix from file " +:+ f +:+ ": " +:+ Error e)).
  - intros g w1. apply removePrefix_acts.
  - intros g w1 w2. apply removePrefix_error_stable.
Qed.

End Commands.

(** * The claims *)

(** ** Inject and remove on one file *)

(** C1. Round trip: when the file holds [C], [P] is not empty and [C] does
    not start with [P], [injectPrefix] followed by [removePrefix] with the
    same flag leaves the file with exactly [C] (and every other file as it
    was); when the file can be written both calls report a change and the
    content in between is [P], the optional line break, [C]. *)
Theorem inject_then_remove_restores
    (w : World) (path P C : string) (lineEnd : bool) :
  disk w !! path = Some C ->
  P <> "" ->
  strings.HasPrefix C P = false ->
  let '(r1, w1) := injectPrefix path P lineEnd w in
  let '(r2, w2) := removePrefix path P lineEnd w1 in
  disk w2 !! path = Some C /\ disk w2 = disk w
  /\ (path ∉ readonly w ->
      r1 = (true, None) /\ r2 = (true, None)
      /\ disk w1 !! path = Some (injected P lineEnd C)).
Proof.
  intros HC _ HP.
  rewrite (injectPrefix_absent path P lineEnd w C HC HP).
  destruct (decide (path ∈ readonly w)) as [Hro|Hrw].
  - rewrite (removePrefix_absent path P lineEnd _ C); [|exact HC|exact HP].
    simpl. by split_and!.
  - set (w1 := store path _ _).
    assert (disk w1 !! path = Some (P +:+ (if lineEnd then LF else "") +:+ C)) as H1.
    { unfold w1, injected. simpl. apply lookup_insert_eq. }
    rewrite (removePrefix_present path P lineEnd w1 _ H1).
    destruct (decide (path ∈ readonly w1)) as [Hro'|_]; [done|].
    assert ((if lineEnd then without_line_break ((if lineEnd then LF else "") +:+ C)
             else (if lineEnd then LF else "") +:+ C) = C) as ->.
    { by destruct lineEnd. }
    simpl. rewrite insert_insert_eq, lookup_insert_eq.
    split_and!; try done. by apply insert_id.
Qed.

Lemma inject_then_remove_restores_witness :
  disk (one_file "hello") !! "f" = Some "hello"
  /\ "PFX" <> ""
  /\ strings.HasPrefix "hello" "PFX" = false
  /\ let '(r1, w1) := injectPrefix "f" "PFX" true (one_file "hello") in
     let '(r2, w2) := removePrefix "f" "PFX" true w1 in
     disk w2 !! "f" = Some "hello" /\ disk w2 = disk (one_file "hello")
     /\ ("f" ∉ readonly (one_file "hello") ->
         r1 = (true, None) /\ r2 = (true, None)
         /\ disk w1 !! "f" = Some (injected "PFX" true "hello")).
Proof.
  split; [reflexivity|]. split; [discriminate|]. split; [reflexivity|].
  apply (inject_then_remove_restores (one_file "hello") "f" "PFX" "hello" true);
    [reflexivity | discriminate | reflexivity].
Defined.

(** C2, as the spec states it, fails: a file that starts with two copies of
    the prefix loses one of them at each [removePrefix]. *)
Lemma remove_twice_differs_from_once :
  let w1 := snd (removePrefix "f" "PFX" false (one_file "PFXPFXhello")) in
  let w2 := snd (removePrefix "f" "PFX" false w1) in
  disk w1 !! "f" = Some "PFXhello"
  /\ disk w2 !! "f" = Some "hello"
  /\ disk w2 !! "f" <> disk w1 !! "f".
Proof. vm_compute. split_and!; [reflexivity | reflexivity | discriminate]. Qed.

(** C2, amended. When the content the first [removePrefix] leaves does not
    start with the prefix, a second [removePrefix] changes nothing: it
    reports no change, writes nothing and the files are as the first call
    left them. *)
Theorem remove_twice_same_when_prefix_gone
    (w : World) (path P : string) (lineEnd : bool) :
  let w1 := snd (removePrefix path P lineEnd w) in
  match disk w1 !! path with
  | Some c1 => strings.HasPrefix c1 P
  | None => false
  end = false ->
  let '(r2, w2) := removePrefix path P lineEnd w1 in
  disk w2 = disk w1 /\ fst r2 = false /\ writes (trace w2) = writes (trace w1).
Proof.
  intros w1 H.
  destruct (disk w1 !! path) as [c1|] eqn:H1.
  - rewrite (removePrefix_absent path P lineEnd w1 c1 H1 H). simpl.
    rewrite writes_app. simpl. by rewrite app_nil_r.
  - rewrite (removePrefix_unreadable path P lineEnd w1 H1). simpl.
    rewrite writes_app. simpl. by rewrite app_nil_r.
Qed.

Lemma remove_twice_same_when_prefix_gone_witness :
  let w1 := snd (removePrefix "f" "PFX" true (one_file ("PFX" +:+ LF +:+ "hello"))) in
  match disk w1 !! "f" with
  | Some c1 => strings.HasPrefix c1 "PFX"
  | None => false
  end = false
  /\ let '(r2, w2) := removePrefix "f" "PFX" true w1 in
     disk w2 = disk w1 /\ fst r2 = false /\ writes (trace w2) = writes (trace w1).
Proof.
  split; [reflexivity|].
  apply (remove_twice_same_when_prefix_gone
           (one_file ("PFX" +:+ LF +:+ "hello")) "f" "PFX" true).
  reflexivity.
Defined.

(** C3. When the content starts with the prefix, whatever follows it and
    whatever the flag, [injectPrefix] reports no change and only reads the
    file; hence a second [injectPrefix] with the same prefix never reports
    a change and leaves every file as the first one left it. *)
Theorem inject_skips_when_prefix_present :
  (forall (w : World) (path P rest : string) (lineEnd : bool),
     disk w !! path = Some (P +:+ rest) ->
     injectPrefix path P lineEnd w = ((false, None), log (ReadFileEv path) w))
  /\ (forall (w : World) (path P : string) (lineEnd : bool),
        let w1 := snd (injectPrefix path P lineEnd w) in
        let '(r2, w2) := injectPrefix path P lineEnd w1 in
        fst r2 = false /\ disk w2 = disk w1).
Proof.
  split.
  - intros w path P rest lineEnd H.
    apply (injectPrefix_present path P lineEnd w _ H), HasPrefix_append.
  - intros w path P lineEnd. cbv zeta.
    destruct (disk w !! path) as [content|] eqn:H.
    + destruct (strings.HasPrefix content P) eqn:HP.
      * rewrite (injectPrefix_present path P lineEnd w content H HP). simpl.
        by rewrite (injectPrefix_present path P lineEnd (log _ w) content H HP).
      * rewrite (injectPrefix_absent path P lineEnd w content H HP).
        destruct (decide (path ∈ readonly w)) as [Hro|Hrw]; simpl.
        -- rewrite (injectPrefix_absent path P lineEnd (log _ (log _ w)) content H HP).
           simpl. by destruct (decide (path ∈ readonly w)).
        -- set (w1 := store path _ _).
           rewrite (injectPrefix_present path P lineEnd w1 (injected P lineEnd content)).
           ++ done.
           ++ unfold w1. simpl. apply lookup_insert_eq.
           ++ apply injected_has_prefix.
    + rewrite (injectPrefix_unreadable path P lineEnd w H). simpl.
      by rewrite (injectPrefix_unreadable path P lineEnd (log _ w) H).
Qed.

Lemma inject_skips_when_prefix_present_witness :
  disk (one_file "PFXhello") !! "f" = Some ("PFX" +:+ "hello")
  /\ injectPrefix "f" "PFX" true (one_file "PFXhello")
     = ((false, None), log (ReadFileEv "f") (one_file "PFXhello")).
Proof.
  split; [reflexivity|].
  apply (proj1 inject_skips_when_prefix_present (one_file "PFXhello") "f" "PFX" "hello" true).
  reflexivity.
Defined.

(** The scenario of the two injections: [hello] becomes [PFXhello] with a
    change reported, and a second injection reports none and leaves it. *)
Example inject_twice_scenario :
  let '(r1, w1) := injectPrefix "f" "PFX" false (one_file "hello") in
  let '(r2, w2) := injectPrefix "f" "PFX" false w1 in
  r1 = (true, None) /\ disk w1 !! "f" = Some "PFXhello"
  /\ r2 = (false, None) /\ disk w2 !! "f" = Some "PFXhello".
Proof. vm_compute. by split_and!. Qed.

(** C4. When the content does not start with the prefix and the file can
    be written, [injectPrefix] reads the file, writes it once with the
    prefix, one line break exactly when the flag is set, and the original
    content, and reports a change.  The prefix [A\nB\n] injected into [x]
    with the flag gives [A\nB\n\nx]. *)
Theorem inject_builds_prefix_break_content :
  (forall (w : World) (path P C : string) (lineEnd : bool),
     disk w !! path = Some C ->
     strings.HasPrefix C P = false ->
     path ∉ readonly w ->
     let new := P +:+ (if lineEnd then LF else "") +:+ C in
     let '(r, w') := injectPrefix path P lineEnd w in
     r = (true, None)
     /\ disk w' = <[path := new]> (disk w)
     /\ trace w' = trace w ++ [ReadFileEv path; WriteFileEv path new])
  /\ disk (snd (injectPrefix "f" ("A" +:+ LF +:+ "B" +:+ LF) true (one_file "x"))) !! "f"
     = Some ("A" +:+ LF +:+ "B" +:+ LF +:+ LF +:+ "x").
Proof.
  split; [|reflexivity].
  intros w path P C lineEnd H HP Hrw.
  rewrite (injectPrefix_absent path P lineEnd w C H HP).
  destruct (decide (path ∈ readonly w)); [done|].
  simpl. split_and!; try done. by rewrite <- app_assoc.
Qed.

Lemma inject_builds_prefix_break_content_witness :
  disk (one_file "hello") !! "f" = Some "hello"
  /\ strings.HasPrefix "hello" "PFX" = false
  /\ ("f" ∉ readonly (one_file "hello"))
  /\ let '(r, w') := injectPrefix "f" "PFX" false (one_file "hello") in
     r = (true, None)
     /\ disk w' = <["f" := "PFXhello"]> (disk (one_file "hello"))
     /\ trace w' = trace (one_file "hello") ++ [ReadFileEv "f"; WriteFileEv "f" "PFXhello"].
Proof.
  split; [reflexivity|]. split; [reflexivity|]. split; [set_solver|].
  apply (proj1 inject_builds_prefix_break_content (one_file "hello") "f" "PFX" "hello" false);
    [reflexivity | reflexivity | set_solver].
Defined.

(** C5. [removePrefix] on a content that does not start with the prefix
    reports no change and only reads the file.  On a content that starts
    with it, when the file can be written, it writes the content without
    that one leading occurrence, and with the flag set also without one
    line break right after it when there is one, and reports a change.
    [PFX\nhello] with prefix [PFX] and the flag becomes [hello]. *)
Theorem remove_strips_one_prefix :
  (forall (w : World) (path P C : string) (lineEnd : bool),
     disk w !! path = Some C ->
     strings.HasPrefix C P = false ->
     removePrefix path P lineEnd w = ((false, None), log (ReadFileEv path) w))
  /\ (forall (w : World) (path P rest : string) (lineEnd : bool),
        disk w !! path = Some (P +:+ rest) ->
        path ∉ readonly w ->
        let new :=
          if lineEnd
          then match rest with
               | String c rest' => if Ascii.eqb c "010" then rest' else rest
               | "" => ""
               end
          else rest in
        let '(r, w') := removePrefix path P lineEnd w in
        r = (true, None)
        /\ disk w' = <[path := new]> (disk w)
        /\ trace w' = trace w ++ [ReadFileEv path; WriteFileEv path new])
  /\ disk (snd (removePrefix "f" "PFX" true (one_file ("PFX" +:+ LF +:+ "hello")))) !! "f"
     = Some "hello".
Proof.
  split_and!; [| |reflexivity].
  - intros w path P C lineEnd H HP. by apply (removePrefix_absent path P lineEnd w C).
  - intros w path P rest lineEnd H Hrw.
    rewrite (removePrefix_present path P lineEnd w rest H).
    destruct (decide (path ∈ readonly w)); [done|].
    simpl. split_and!; try done. by rewrite <- app_assoc.
Qed.

Lemma remove_strips_one_prefix_witness :
  disk (one_file "PFXhello") !! "f" = Some ("PFX" +:+ "hello")
  /\ ("f" ∉ readonly (one_file "PFXhello"))
  /\ let '(r, w') := removePrefix "f" "PFX" true (one_file "PFXhello") in
     r = (true, None)
     /\ disk w' = <["f" := "hello"]> (disk (one_file "PFXhello"))
     /\ trace w' = trace (one_file "PFXhello") ++ [ReadFileEv "f"; WriteFileEv "f" "hello"].
Proof.
  split; [reflexivity|]. split; [set_solver|].
  apply (proj1 (proj2 remove_strips_one_prefix) (one_file "PFXhello") "f" "PFX" "hello" true);
    [reflexivity | set_solver].
Defined.

(** ** The commands *)

(** C6. When the walk of the root fails, [injectCmd] and [removeCmd]
    return its error, wrapped; [injectCmd] has printed its two first lines
    and [removeCmd] nothing, and no file has been read or written.  The
    walk fails when nothing is found at the root and when the root is a
    directory that cannot be listed. *)
Theorem traversal_failure_aborts_before_mutation :
  (forall (options : opts) (w : World) (e : error),
     snd (fst (walkMatch (rootPath options) (pattern options) w)) = Some e ->
     (let '(r, w') := injectCmd options w in
      r = Some (Wrapped e "error walking root path")
      /\ disk w' = disk w
      /\ trace w' = trace w ++ [PrintlnEv ("Prefix " +:+ " " +:+ prefix options);
                                PrintlnEv ("Pattern " +:+ " " +:+ pattern options)]
      /\ reads (trace w') = reads (trace w)
      /\ writes (trace w') = writes (trace w))
     /\ removeCmd options w = (Some (Wrapped e "error walking root path"), w))
  /\ (forall (root pattern : string) (w : World),
        dirs w !! root = None ->
        exists e, snd (fst (walkMatch root pattern w)) = Some e)
  /\ (forall (root pattern : string) (w : World) (names : list (string * node)),
        dirs w !! root = Some (Dir false names) ->
        exists e, snd (fst (walkMatch root pattern w)) = Some e).
Proof.
  split_and!.
  - intros options w e He. rewrite injectCmd_run, removeCmd_run.
    destruct (fst (walkMatch (rootPath options) (pattern options) w)) as [files err].
    simpl in He. subst err. split; [|done].
    simpl. rewrite reads_app, writes_app. simpl. by rewrite !app_nil_r.
  - intros root pattern w H. rewrite (walkMatch_no_root pattern root w H). by eexists.
  - intros root pattern w names H.
    rewrite (walkMatch_unreadable_root pattern root w names H). by eexists.
Qed.

Lemma traversal_failure_aborts_before_mutation_witness :
  snd (fst (walkMatch "nowhere" "*" test_world))
  = Some (PathError "lstat" "nowhere" "no such file or directory")
  /\ removeCmd (mkOpts "nowhere" "PFX" "*" false) test_world
     = (Some (Wrapped (PathError "lstat" "nowhere" "no such file or directory")
                "error walking root path"), test_world).
Proof.
  split; [reflexivity|].
  apply (proj1 traversal_failure_aborts_before_mutation
           (mkOpts "nowhere" "PFX" "*" false) test_world
           (PathError "lstat" "nowhere" "no such file or directory")).
  reflexivity.
Defined.

(** C7. When the walk succeeds, [injectCmd] and [removeCmd] return [nil];
    every file of the list is read, in the order of the list, whatever the
    calls on the files before it returned; and when the call on a file of
    the list fails, the line with its error is on the output.  Whether the
    call on a file fails does not depend on the calls made before it
    ([injectPrefix_error_stable]), so the failure is stated in the world
    the command starts in. *)
Theorem per_file_errors_do_not_abort
    (options : opts) (w : World) (files : list string) :
  fst (walkMatch (rootPath options) (pattern options) w) = (files, None) ->
  (let '(r, w') := injectCmd options w in
   r = None
   /\ reads (trace w') = reads (trace w) ++ files
   /\ forall f e,
        In f files ->
        snd (fst (injectPrefix f (prefix options) (withLineEnd options) w)) = Some e ->
        In (PrintlnEv ("Error injecting prefix to file " +:+ f +:+ ": " +:+ Error e))
           (trace w'))
  /\ (let '(r, w') := removeCmd options w in
      r = None
      /\ reads (trace w') = reads (trace w) ++ files
      /\ forall f e,
           In f files ->
           snd (fst (removePrefix f (prefix options) (withLineEnd options) w)) = Some e ->
           In (PrintlnEv ("Error removing prefix from file " +:+ f +:+ ": " +:+ Error e))
              (trace w')).
Proof.
  intros Hwalk. rewrite injectCmd_run, removeCmd_run, Hwalk. split.
  - set (start := add_trace _ w).
    destruct (inject_loop_effects options files start) as (_ & _ & evs & Ht & Hr & _).
    split_and!; [done | |].
    + rewrite trace_add_trace, Ht. unfold start.
      rewrite trace_add_trace, !reads_app, Hr, (proj1 (found_lines_quiet files)).
      simpl. by rewrite !app_nil_r.
    + intros f e Hin He. rewrite trace_add_trace. apply in_app_iff. left.
      apply (inject_loop_prints_errors options files w start f e);
        [apply same_access_add_trace, same_access_refl | done | done].
  - set (start := add_trace _ w).
    destruct (remove_loop_effects options files start) as (_ & _ & evs & Ht & Hr & _).
    split_and!; [done | |].
    + rewrite trace_add_trace, Ht. unfold start.
      rewrite trace_add_trace, !reads_app, Hr, (proj1 (found_lines_quiet files)).
      simpl. by rewrite !app_nil_r.
    + intros f e Hin He. rewrite trace_add_trace. apply in_app_iff. left.
      apply (remove_loop_prints_errors options files w start f e);
        [apply same_access_add_trace, same_access_refl | done | done].
Qed.

Lemma per_file_errors_do_not_abort_witness :
  fst (walkMatch "testdata" "*.txt" faulty_world)
  = (["testdata/file_1.txt"; "testdata/inner_dir/file_2.txt";
      "testdata/inner_dir/inner_inner_dir/file_3.txt"], None)
  /\ (let '(r, w') := injectCmd (mkOpts "testdata" "PFX" "*.txt" true) faulty_world in
      r = None
      /\ reads (trace w')
         = reads (trace faulty_world)
           ++ ["testdata/file_1.txt"; "testdata/inner_dir/file_2.txt";
               "testdata/inner_dir/inner_inner_dir/file_3.txt"]
      /\ forall f e,
           In f ["testdata/file_1.txt"; "testdata/inner_dir/file_2.txt";
                 "testdata/inner_dir/inner_inner_dir/file_3.txt"] ->
           snd (fst (injectPrefix f "PFX" true faulty_world)) = Some e ->
           In (PrintlnEv ("Error injecting prefix to file " +:+ f +:+ ": " +:+ Error e))
              (trace w')).
Proof.
  split; [vm_compute; reflexivity|].
  apply (per_file_errors_do_not_abort (mkOpts "testdata" "PFX" "*.txt" true) faulty_world
           ["testdata/file_1.txt"; "testdata/inner_dir/file_2.txt";
            "testdata/inner_dir/inner_inner_dir/file_3.txt"]).
  vm_compute; reflexivity.
Defined.

(** The run of [injectCmd] in the faulty world: both errors are printed
    and the third file is still processed. *)
Example inject_in_faulty_world :
  let '(r, w') := injectCmd (mkOpts "testdata" "PFX" "*.txt" true) faulty_world in
  r = None
  /\ In (PrintlnEv "Error injecting prefix to file testdata/file_1.txt: open testdata/file_1.txt: permission denied")
        (trace w')
  /\ In (PrintlnEv "Error injecting prefix to file testdata/inner_dir/file_2.txt: open testdata/inner_dir/file_2.txt: no such file or directory")
        (trace w')
  /\ disk w' !! "testdata/inner_dir/inner_inner_dir/file_3.txt"
     = Some ("PFX" +:+ LF +:+ "three").
Proof. vm_compute. split_and!; try reflexivity; tauto. Qed.

(** The files of the tests, as [readOriginalFiles] expects them, and the
    files the pattern [*.txt] selects. *)
Example walkMatch_testdata :
  fst (walkMatch "testdata" "*" test_world)
  = (["testdata/file_1.txt"; "testdata/file_4.json"; "testdata/file_with_prefix";
      "testdata/inner_dir/DONTREADME.md"; "testdata/inner_dir/file_2.txt";
      "testdata/inner_dir/inner_inner_dir/file_3.txt";
      "testdata/inner_dir/inner_inner_dir/ignore_me.json"], None)
  /\ fst (walkMatch "testdata" "*.txt" test_world)
     = (["testdata/file_1.txt"; "testdata/inner_dir/file_2.txt";
         "testdata/inner_dir/inner_inner_dir/file_3.txt"], None).
Proof. split; vm_compute; reflexivity. Qed.

(** C8. When the walk succeeds, the paths it returns are the entries of
    the tree at the root that are not directories and whose base name
    matches the pattern.  With the pattern [*.txt], [injectCmd] and
    [removeCmd] leave every path whose base name does not end in [.txt]
    with its content and never write it. *)
Theorem selector_picks_matching_files :
  (forall (root pattern : string) (w : World) (files : list string),
     fst (walkMatch root pattern w) = (files, None) ->
     exists info,
       dirs w !! root = Some info
       /\ forall p, In p files
            <-> entry root info p File
                /\ filepath.Match pattern (filepath.Base p) = (true, None))
  /\ (forall (options : opts) (w : World) (p : string),
        pattern options = "*.txt" ->
        HasSuffix (filepath.Base p) ".txt" = false ->
        (let w' := snd (injectCmd options w) in
         disk w' !! p = disk w !! p
         /\ (In p (writes (trace w')) -> In p (writes (trace w))))
        /\ (let w' := snd (removeCmd options w) in
            disk w' !! p = disk w !! p
            /\ (In p (writes (trace w')) -> In p (writes (trace w))))).
Proof.
  split; [intros root pattern w files; apply walkMatch_ok|].
  intros options w p Hpat Hsuffix.
  assert (forall files,
            fst (walkMatch (rootPath options) (pattern options) w) = (files, None) ->
            ~ In p files) as Hout.
  { intros files Hwalk Hin.
    apply walkMatch_ok in Hwalk as (info & _ & Hfiles).
    apply Hfiles in Hin as [_ HM]. rewrite Hpat in HM.
    apply (Match_star_plain ".txt") in HM; [congruence | reflexivity | discriminate]. }
  rewrite injectCmd_run, removeCmd_run.
  destruct (fst (walkMatch (rootPath options) (pattern options) w)) as [files [e|]].
  - cbn [snd]. rewrite !trace_add_trace, writes_app. simpl.
    rewrite app_nil_r. tauto.
  - specialize (Hout files eq_refl). cbn [snd]. split.
    + set (start := add_trace _ w).
      destruct (inject_loop_effects options files start) as (_ & Hd & evs & Ht & _ & Hw).
      rewrite disk_add_trace, trace_add_trace, Ht. unfold start at 2.
      rewrite trace_add_trace, !writes_app, (proj2 (found_lines_quiet files)).
      split; [by rewrite Hd|]. simpl. rewrite !app_nil_r.
      intros [Hp | Hp]%in_app_iff; [done|]. destruct (Hout (Hw p Hp)).
    + set (start := add_trace _ w).
      destruct (remove_loop_effects options files start) as (_ & Hd & evs & Ht & _ & Hw).
      rewrite disk_add_trace, trace_add_trace, Ht. unfold start at 2.
      rewrite trace_add_trace, !writes_app, (proj2 (found_lines_quiet files)).
      split; [by rewrite Hd|]. simpl. rewrite !app_nil_r.
      intros [Hp | Hp]%in_app_iff; [done|]. destruct (Hout (Hw p Hp)).
Qed.

Lemma selector_picks_matching_files_witness :
  fst (walkMatch "testdata" "*.txt" test_world)
  = (["testdata/file_1.txt"; "testdata/inner_dir/file_2.txt";
      "testdata/inner_dir/inner_inner_dir/file_3.txt"], None)
  /\ exists info,
       dirs test_world !! "testdata" = Some info
       /\ forall p,
            In p ["testdata/file_1.txt"; "testdata/inner_dir/file_2.txt";
                  "testdata/inner_dir/inner_inner_dir/file_3.txt"]
            <-> entry "testdata" info p File
                /\ filepath.Match "*.txt" (filepath.Base p) = (true, None).
Proof.
  split; [vm_compute; reflexivity|].
  apply (proj1 selector_picks_matching_files "testdata" "*.txt" test_world).
  vm_compute; reflexivity.
Defined.

(** C9. With a root path given: a [--prefix] that is not empty is the
    prefix, whatever [--prefix-file] says, and no file is read; with an
    empty [--prefix] the prefix is the whole content of the prefix file.
    When that leaves an empty prefix, or the prefix file cannot be read,
    [parseOpts] returns an error.  An error of [parseOpts] is what the
    command returns; the run has then written nothing and read at most the
    prefix file. *)
Theorem prefix_source_resolution :
  (forall (cmd : FlagSet) (w : World) (root : string) (rest : list string),
     root <> "" ->
     flag_prefix cmd <> "" ->
     parseOpts cmd (root :: rest) w
     = ((mkOpts root (flag_prefix cmd) (flag_pattern cmd) (flag_with_line_end cmd), None), w))
  /\ (forall (cmd : FlagSet) (w : World) (root : string) (rest : list string)
             (content : string),
        root <> "" ->
        flag_prefix cmd = "" ->
        flag_prefix_file cmd <> "" ->
        disk w !! flag_prefix_file cmd = Some content ->
        content <> "" ->
        parseOpts cmd (root :: rest) w
        = ((mkOpts root content (flag_pattern cmd) (flag_with_line_end cmd), None),
           log (ReadFileEv (flag_prefix_file cmd)) w))
  /\ (forall (cmd : FlagSet) (w : World) (args : list string),
        flag_prefix cmd = "" ->
        flag_prefix_file cmd = ""
        \/ disk w !! flag_prefix_file cmd = None
        \/ disk w !! flag_prefix_file cmd = Some "" ->
        exists e, snd (fst (parseOpts cmd args w)) = Some e)
  /\ (forall (cmd : FlagSet) (w : World) (args : list string) (e : error),
        snd (fst (parseOpts cmd args w)) = Some e ->
        let w' := snd (parseOpts cmd args w) in
        injectCommand_RunE cmd args w = (Some e, w')
        /\ removeCommand_RunE cmd args w = (Some e, w')
        /\ disk w' = disk w
        /\ (trace w' = trace w
            \/ trace w' = trace w ++ [ReadFileEv (flag_prefix_file cmd)])).
Proof.
  split_and!.
  - intros. by apply parseOpts_prefix_flag.
  - intros. by apply parseOpts_prefix_file.
  - intros. by apply parseOpts_no_prefix.
  - intros cmd w args e He w'.
    pose proof (parseOpts_effects cmd w args) as (Hd & _ & _ & Ht).
    unfold injectCommand_RunE, removeCommand_RunE, mbind, IO_bind, w' in *.
    destruct (parseOpts cmd args w) as [[o err] w1]; simpl in *.
    subst err. by split_and!.
Qed.

Lemma prefix_source_resolution_witness :
  "testdata" <> ""
  /\ flag_prefix (mkFlags "*.txt" "" "testdata/file_with_prefix" true) = ""
  /\ flag_prefix_file (mkFlags "*.txt" "" "testdata/file_with_prefix" true) <> ""
  /\ disk test_world !! "testdata/file_with_prefix" = Some ("Prefix from file" +:+ LF)
  /\ "Prefix from file" +:+ LF <> ""
  /\ parseOpts (mkFlags "*.txt" "" "testdata/file_with_prefix" true) ["testdata"] test_world
     = ((mkOpts "testdata" ("Prefix from file" +:+ LF) "*.txt" true, None),
        log (ReadFileEv "testdata/file_with_prefix") test_world).
Proof.
  split; [discriminate|]. split; [reflexivity|]. split; [discriminate|].
  split; [reflexivity|]. split; [discriminate|].
  apply (proj1 (proj2 prefix_source_resolution)
           (mkFlags "*.txt" "" "testdata/file_with_prefix" true) test_world "testdata" []
           ("Prefix from file" +:+ LF));
    [discriminate | reflexivity | discriminate | reflexivity | discriminate].
Defined.

(** C10. With the empty string as prefix, [injectPrefix] on a readable
    file reports no change and writes nothing, while [removePrefix] on a
    writable file reports a change and writes the file again: with the same
    content when the flag is off, without one leading line break (when
    there is one) when it is on.  [parseOpts] never yields an empty
    prefix. *)
Theorem empty_prefix_edge_case :
  (forall (w : World) (path C : string) (lineEnd : bool),
     disk w !! path = Some C ->
     injectPrefix path "" lineEnd w = ((false, None), log (ReadFileEv path) w))
  /\ (forall (w : World) (path C : string) (lineEnd : bool),
        disk w !! path = Some C ->
        path ∉ readonly w ->
        let new := if lineEnd then without_line_break C else C in
        let '(r, w') := removePrefix path "" lineEnd w in
        r = (true, None)
        /\ trace w' = trace w ++ [ReadFileEv path; WriteFileEv path new]
        /\ disk w' !! path = Some new
        /\ (lineEnd = false -> disk w' = disk w))
  /\ (forall (cmd : FlagSet) (args : list string) (w w' : World) (o : opts),
        parseOpts cmd args w = ((o, None), w') -> prefix o <> "").
Proof.
  split_and!.
  - intros w path C lineEnd H.
    apply (injectPrefix_present path "" lineEnd w C H), HasPrefix_empty.
  - intros w path C lineEnd H Hrw.
    rewrite (removePrefix_present path "" lineEnd w C H).
    destruct (decide (path ∈ readonly w)); [done|].
    simpl. split_and!; try done.
    + by rewrite <- app_assoc.
    + apply lookup_insert_eq.
    + intros ->. by apply insert_id.
  - intros cmd args w w' o H. by eapply parseOpts_prefix_not_empty.
Qed.

Lemma empty_prefix_edge_case_witness :
  disk (one_file "hello") !! "f" = Some "hello"
  /\ ("f" ∉ readonly (one_file "hello"))
  /\ let '(r, w') := removePrefix "f" "" false (one_file "hello") in
     r = (true, None)
     /\ trace w' = trace (one_file "hello") ++ [ReadFileEv "f"; WriteFileEv "f" "hello"]
     /\ disk w' !! "f" = Some "hello"
     /\ (false = false -> disk w' = disk (one_file "hello")).
Proof.
  split; [reflexivity|]. split; [set_solver|].
  apply (proj1 (proj2 empty_prefix_edge_case) (one_file "hello") "f" "hello" false);
    [reflexivity | set_solver].
Defined.

(** * Further properties of the program *)

(** ** The files after a loop *)

Section DiskAfter.

Variables (P : string) (lineEnd : bool).

Lemma removed_append (rest : string) :
  removed P lineEnd (P +:+ rest) = if lineEnd then without_line_break rest else rest.
Proof. unfold removed. by rewrite drop_bytes_append. Qed.

Lemma injectPrefix_disk (f : string) (w : World) :
  disk (snd (injectPrefix f P lineEnd w))
  = inject_on_disk P lineEnd (readonly w) (disk w) f.
Proof.
  unfold inject_on_disk. destruct (disk w !! f) as [c|] eqn:H.
  - destruct (strings.HasPrefix c P) eqn:HP.
    + by rewrite (injectPrefix_present f P lineEnd w c H HP).
    + rewrite (injectPrefix_absent f P lineEnd w c H HP). simpl.
      destruct (decide (f ∈ readonly w)).
      * by rewrite bool_decide_eq_true_2.
      * by rewrite bool_decide_eq_false_2.
  - by rewrite (injectPrefix_unreadable f P lineEnd w H).
Qed.

Lemma removePrefix_disk (f : string) (w : World) :
  disk (snd (removePrefix f P lineEnd w))
  = remove_on_disk P lineEnd (readonly w) (disk w) f.
Proof.
  unfold remove_on_disk. destruct (disk w !! f) as [c|] eqn:H.
  - destruct (strings.HasPrefix c P) eqn:HP.
    + apply HasPrefix_true in HP. revert H. generalize (drop_bytes (String.length P) c) HP.
      intros rest -> H.
      rewrite (removePrefix_present f P lineEnd w _ H), removed_append.
      simpl. destruct (decide (f ∈ readonly w)).
      * by rewrite bool_decide_eq_true_2.
      * by rewrite bool_decide_eq_false_2.
    + by rewrite (removePrefix_absent f P lineEnd w c H HP).
  - by rewrite (removePrefix_unreadable f P lineEnd w H).
Qed.

Lemma inject_on_disk_lookup (ro : gset string) (d : gmap string string) (f p : string) :
  inject_on_disk P lineEnd ro d f !! p
  = if decide (p = f) then injected_file P lineEnd ro p (d !! p) else d !! p.
Proof.
  unfold inject_on_disk, injected_file.
  destruct (decide (p = f)) as [->|Hne].
  - destruct (d !! f) as [c|] eqn:H; [|done].
    destruct (_ || _); [done | apply lookup_insert_eq].
  - destruct (d !! f) as [c|]; [|done].
    destruct (_ || _); [done | by apply lookup_insert_ne].
Qed.

Lemma remove_on_disk_lookup (ro : gset string) (d : gmap string string) (f p : string) :
  remove_on_disk P lineEnd ro d f !! p
  = if decide (p = f) then removed_file P lineEnd ro p (d !! p) else d !! p.
Proof.
  unfold remove_on_disk, removed_file.
  destruct (decide (p = f)) as [->|Hne].
  - destruct (d !! f) as [c|] eqn:H; [|done].
    destruct (_ && _); [apply lookup_insert_eq | done].
  - destruct (d !! f) as [c|]; [|done].
    destruct (_ && _); [by apply lookup_insert_ne | done].
Qed.

Lemma injected_file_idemp (ro : gset string) (p : string) (o : option string) :
  injected_file P lineEnd ro p (injected_file P lineEnd ro p o) = injected_file P lineEnd ro p o.
Proof.
  destruct o as [c|]; [|done]. simpl.
  destruct (strings.HasPrefix c P) eqn:HP; simpl.
  - by rewrite HP.
  - destruct (bool_decide (p ∈ ro)) eqn:Hro; simpl.
    + by rewrite HP, Hro.
    + by rewrite injected_has_prefix.
Qed.

(** After [inject_on_disk] on every file of a list, a file of the list
    is injected once, and the others are as they were. *)
Lemma foldl_inject_lookup (ro : gset string) (files : list string)
    (d : gmap string string) (p : string) :
  foldl (inject_on_disk P lineEnd ro) d files !! p
  = if bool_decide (p ∈ files) then injected_file P lineEnd ro p (d !! p) else d !! p.
Proof.
  revert d. induction files as [|f files IH]; intros d; simpl; [done|].
  rewrite IH, inject_on_disk_lookup.
  destruct (decide (p = f)) as [->|Hne].
  - rewrite (bool_decide_eq_true_2 (f ∈ f :: files)) by left.
    destruct (bool_decide (f ∈ files)); [apply injected_file_idemp | done].
  - destruct (bool_decide (p ∈ files)) eqn:Hin.
    + apply bool_decide_eq_true_1 in Hin.
      by rewrite (bool_decide_eq_true_2 (p ∈ f :: files)) by (by right).
    + apply bool_decide_eq_false_1 in Hin.
      rewrite (bool_decide_eq_false_2 (p ∈ f :: files)); [done|].
      by intros [?|?]%elem_of_cons.
Qed.

(** The same for [remove_on_disk], on a list without repetition. *)
Lemma foldl_remove_lookup (ro : gset string) (files : list string)
    (d : gmap string string) (p : string) :
  NoDup files ->
  foldl (remove_on_disk P lineEnd ro) d files !! p
  = if bool_decide (p ∈ files) then removed_file P lineEnd ro p (d !! p) else d !! p.
Proof.
  intros Hnd. revert d.
  induction Hnd as [|f files Hnotin Hnd IH]; intros d; simpl; [done|].
  rewrite IH, remove_on_disk_lookup.
  destruct (decide (p = f)) as [->|Hne].
  - rewrite (bool_decide_eq_true_2 (f ∈ f :: files)) by left.
    by rewrite (bool_decide_eq_false_2 (f ∈ files)).
  - destruct (bool_decide (p ∈ files)) eqn:Hin.
    + apply bool_decide_eq_true_1 in Hin.
      by rewrite (bool_decide_eq_true_2 (p ∈ f :: files)) by (by right).
    + apply bool_decide_eq_false_1 in Hin.
      rewrite (bool_decide_eq_false_2 (p ∈ f :: files)); [done|].
      by intros [?|?]%elem_of_cons.
Qed.

Lemma removed_injected (c : string) :
  removed P lineEnd (injected P lineEnd c) = c.
Proof. unfold injected. rewrite removed_append. by destruct lineEnd. Qed.

Lemma removed_file_injected_file (ro : gset string) (p c : string) :
  strings.HasPrefix c P = false ->
  removed_file P lineEnd ro p (injected_file P lineEnd ro p (Some c)) = Some c.
Proof.
  intros HP. simpl. rewrite HP. simpl.
  destruct (bool_decide (p ∈ ro)) eqn:Hro; simpl.
  - by rewrite HP.
  - by rewrite injected_has_prefix, Hro, removed_injected.
Qed.

Lemma removed_file_clean (ro : gset string) (p c : string) :
  strings.HasPrefix c P = false -> removed_file P lineEnd ro p (Some c) = Some c.
Proof. intros HP. simpl. by rewrite HP. Qed.

(** Removing from every file of a list, repeated or not, after injecting
    into some of them gives back contents that did not start with the
    prefix. *)
Lemma foldl_remove_restores (ro : gset string) (d : gmap string string)
    (l : list string) (d' : gmap string string) (p : string) :
  (forall q, d' !! q = d !! q \/ d' !! q = injected_file P lineEnd ro q (d !! q)) ->
  (forall q c, q ∈ l -> d !! q = Some c -> strings.HasPrefix c P = false) ->
  foldl (remove_on_disk P lineEnd ro) d' l !! p
  = if bool_decide (p ∈ l) then d !! p else d' !! p.
Proof.
  revert d'. induction l as [|f l IH]; intros d' HJ Hok; simpl; [done|].
  assert (remove_on_disk P lineEnd ro d' f !! f = d !! f) as Hf.
  { rewrite remove_on_disk_lookup. destruct (decide (f = f)); [|done].
    destruct (d !! f) as [c|] eqn:Hd.
    - assert (strings.HasPrefix c P = false) as HP by (eapply Hok; [left | done]).
      destruct (HJ f) as [-> | ->]; rewrite Hd.
      + by apply removed_file_clean.
      + by apply removed_file_injected_file.
    - by destruct (HJ f) as [-> | ->]; rewrite Hd. }
  rewrite IH.
  - destruct (decide (p = f)) as [->|Hne].
    + rewrite (bool_decide_eq_true_2 (f ∈ f :: l)) by left.
      by destruct (bool_decide (f ∈ l)).
    + rewrite remove_on_disk_lookup. destruct (decide (p = f)); [done|].
      destruct (bool_decide (p ∈ l)) eqn:Hin.
      * apply bool_decide_eq_true_1 in Hin.
        by rewrite (bool_decide_eq_true_2 (p ∈ f :: l)) by (by right).
      * apply bool_decide_eq_false_1 in Hin.
        rewrite (bool_decide_eq_false_2 (p ∈ f :: l)); [done|].
        by intros [?|?]%elem_of_cons.
  - intros q. destruct (decide (q = f)) as [->|Hne]; [by left|].
    rewrite remove_on_disk_lookup. destruct (decide (q = f)); [done | apply HJ].
  - intros q c Hq. apply Hok. by right.
Qed.

Lemma foldl_remove_foldl_inject (ro : gset string) (d : gmap string string)
    (files : list string) :
  (forall q c, q ∈ files -> d !! q = Some c -> strings.HasPrefix c P = false) ->
  foldl (remove_on_disk P lineEnd ro) (foldl (inject_on_disk P lineEnd ro) d files) files
  = d.
Proof.
  intros Hok. apply map_eq. intros p.
  rewrite (foldl_remove_restores ro d); [| |done].
  - destruct (bool_decide (p ∈ files)) eqn:Hin; [done|].
    by rewrite foldl_inject_lookup, Hin.
  - intros q. rewrite foldl_inject_lookup.
    destruct (bool_decide (q ∈ files)); [by right | by left].
Qed.

Lemma foldl_inject_foldl_inject (ro : gset string) (d : gmap string string)
    (files : list string) :
  foldl (inject_on_disk P lineEnd ro) (foldl (inject_on_disk P lineEnd ro) d files) files
  = foldl (inject_on_disk P lineEnd ro) d files.
Proof.
  apply map_eq. intros p. rewrite !foldl_inject_lookup.
  destruct (bool_decide (p ∈ files)); [apply injected_file_idemp | done].
Qed.

End DiskAfter.

(** ** The files after a command *)

Section CommandDisk.

Variable options : opts.

Lemma inject_loop_disk (files : list string) (w : World) :
  let w' := snd (for_range files (inject_loop options) w) in
  readonly w' = readonly w /\ dirs w' = dirs w
  /\ disk w'
     = foldl (inject_on_disk (prefix options) (withLineEnd options) (readonly w))
         (disk w) files.
Proof.
  revert w. induction files as [|f files IH]; intros w; simpl; [done|].
  unfold mbind, IO_bind.
  pose proof (loop_body_run
                (fun f => injectPrefix f (prefix options) (withLineEnd options))
                (fun f e => "Error injecting prefix to file " +:+ f +:+ ": " +:+ Error e)
                (fun f => "File " +:+ f +:+ " already has the prefix") f w) as Hrun.
  fold (inject_loop options) in Hrun.
  pose proof (injectPrefix_frame f (prefix options) (withLineEnd options) w)
    as (Hro & Hd & _).
  pose proof (injectPrefix_disk (prefix options) (withLineEnd options) f w) as Hdisk.
  destruct (inject_loop options f w) as [[] w1]. simpl in Hrun. subst w1.
  match goal with
  | |- context [for_range files _ ?w1] => destruct (IH w1) as (-> & -> & ->)
  end.
  simpl. by rewrite Hro, Hd, Hdisk.
Qed.

Lemma remove_loop_disk (files : list string) (w : World) :
  let w' := snd (for_range files (remove_loop options) w) in
  readonly w' = readonly w /\ dirs w' = dirs w
  /\ disk w'
     = foldl (remove_on_disk (prefix options) (withLineEnd options) (readonly w))
         (disk w) files.
Proof.
  revert w. induction files as [|f files IH]; intros w; simpl; [done|].
  unfold mbind, IO_bind.
  pose proof (loop_body_run
                (fun f => removePrefix f (prefix options) (withLineEnd options))
                (fun f e => "Error removing prefix from file " +:+ f +:+ ": " +:+ Error e)
                (fun f => "File " +:+ f +:+ " did not have the prefix") f w) as Hrun.
  fold (remove_loop options) in Hrun.
  pose proof (removePrefix_frame f (prefix options) (withLineEnd options) w)
    as (Hro & Hd & _).
  pose proof (removePrefix_disk (prefix options) (withLineEnd options) f w) as Hdisk.
  destruct (remove_loop options f w) as [[] w1]. simpl in Hrun. subst w1.
  match goal with
  | |- context [for_range files _ ?w1] => destruct (IH w1) as (-> & -> & ->)
  end.
  simpl. by rewrite Hro, Hd, Hdisk.
Qed.

(** The world after [injectCmd]: the directories and the paths that can
    be written are the same, and the files are those of the loop when the
    walk succeeds, and unchanged when it fails. *)
Lemma injectCmd_after (w : World) :
  let w' := snd (injectCmd options w) in
  readonly w' = readonly w /\ dirs w' = dirs w
  /\ disk w'
     = match fst (walkMatch (rootPath options) (pattern options) w) with
       | (files, None) =>
           foldl (inject_on_disk (prefix options) (withLineEnd options) (readonly w))
             (disk w) files
       | (_, Some _) => disk w
       end.
Proof.
  rewrite injectCmd_run.
  destruct (fst (walkMatch (rootPath options) (pattern options) w)) as [files [e|]];
    [done|].
  cbn [snd]. set (start := add_trace _ w).
  by destruct (inject_loop_disk files start) as (? & ? & ?).
Qed.

Lemma removeCmd_after (w : World) :
  let w' := snd (removeCmd options w) in
  readonly w' = readonly w /\ dirs w' = dirs w
  /\ disk w'
     = match fst (walkMatch (rootPath options) (pattern options) w) with
       | (files, None) =>
           foldl (remove_on_disk (prefix options) (withLineEnd options) (readonly w))
             (disk w) files
       | (_, Some _) => disk w
       end.
Proof.
  rewrite removeCmd_run.
  destruct (fst (walkMatch (rootPath options) (pattern options) w)) as [files [e|]];
    [done|].
  cbn [snd]. set (start := add_trace _ w).
  by destruct (remove_loop_disk files start) as (? & ? & ?).
Qed.

End CommandDisk.

Lemma injectCmd_injectCmd_disk (options : opts) (w : World) :
  disk (snd (injectCmd options (snd (injectCmd options w))))
  = disk (snd (injectCmd options w)).
Proof.
  pose proof (injectCmd_after options w) as (Hro & Hd & Hdisk).
  pose proof (injectCmd_after options (snd (injectCmd options w))) as (_ & _ & Hdisk2).
  rewrite Hdisk2, (walkMatch_dirs _ _ _ w Hd), Hro, Hdisk.
  destruct (fst (walkMatch (rootPath options) (pattern options) w)) as [files [e|]];
    [done|].
  apply foldl_inject_foldl_inject.
Qed.

Lemma lacks_prefix_spec (P : string) (d : gmap string string) (files : list string) :
  forallb (lacks_prefix P d) files = true ->
  forall q c, q ∈ files -> d !! q = Some c -> strings.HasPrefix c P = false.
Proof.
  intros H q c Hq Hd. rewrite forallb_forall in H.
  apply list_elem_of_In, H in Hq. unfold lacks_prefix in Hq. rewrite Hd in Hq.
  by apply negb_true_iff.
Qed.

(** ** Properties of the commands on the files *)

(** X1. A second [injectCmd] leaves every file as the first one left it,
    whatever the tree, the files and the options. *)
Theorem injectCmd_twice_same_files (options : opts) (w : World) :
  disk (snd (injectCmd options (snd (injectCmd options w))))
  = disk (snd (injectCmd options w)).
Proof. apply injectCmd_injectCmd_disk. Qed.

(** X2. When no selected file that can be read starts with the prefix,
    [injectCmd] followed by [removeCmd] with the same options leaves every
    file with the content it had, also when [injectCmd] is run twice
    before. *)
Theorem injectCmd_then_removeCmd_restores (options : opts) (w : World) :
  forallb (lacks_prefix (prefix options) (disk w))
    (fst (fst (walkMatch (rootPath options) (pattern options) w))) = true ->
  disk (snd (removeCmd options (snd (injectCmd options w)))) = disk w
  /\ disk (snd (removeCmd options (snd (injectCmd options (snd (injectCmd options w))))))
     = disk w.
Proof.
  intros Hclean.
  assert (disk (snd (removeCmd options (snd (injectCmd options w)))) = disk w) as Hone.
  { pose proof (injectCmd_after options w) as (Hro & Hd & Hdisk).
    pose proof (removeCmd_after options (snd (injectCmd options w))) as (_ & _ & Hdisk2).
    rewrite Hdisk2, (walkMatch_dirs _ _ _ w Hd), Hro, Hdisk.
    destruct (fst (walkMatch (rootPath options) (pattern options) w)) as [files [e|]];
      [done|].
    apply foldl_remove_foldl_inject. by apply lacks_prefix_spec. }
  split; [exact Hone|].
  pose proof (injectCmd_after options w) as (Hro & Hd & _).
  pose proof (injectCmd_after options (snd (injectCmd options w))) as (Hro2 & Hd2 & _).
  pose proof (removeCmd_after options (snd (injectCmd options w))) as (_ & _ & H1).
  pose proof (removeCmd_after options (snd (injectCmd options (snd (injectCmd options w)))))
    as (_ & _ & H2).
  rewrite <- Hone, H1, H2, injectCmd_injectCmd_disk.
  by rewrite (walkMatch_dirs _ _ _ (snd (injectCmd options w)) Hd2), Hro2.
Qed.

Lemma injectCmd_then_removeCmd_restores_witness :
  forallb (lacks_prefix "PFX" (disk test_world))
    (fst (fst (walkMatch "testdata" "*.txt" test_world))) = true
  /\ disk (snd (removeCmd (mkOpts "testdata" "PFX" "*.txt" true)
                  (snd (injectCmd (mkOpts "testdata" "PFX" "*.txt" true) test_world))))
     = disk test_world.
Proof.
  split; [vm_compute; reflexivity|].
  apply (injectCmd_then_removeCmd_restores (mkOpts "testdata" "PFX" "*.txt" true) test_world).
  vm_compute; reflexivity.
Defined.

(** X3. After [injectCmd] with a successful walk, a selected file that can
    be read and written starts with the prefix: it has the content it had
    when that started with the prefix, and the prefix, the optional line
    break and that content otherwise. *)
Theorem injectCmd_selected_files_get_prefix
    (options : opts) (w : World) (files : list string) (p c : string) :
  fst (walkMatch (rootPath options) (pattern options) w) = (files, None) ->
  In p files ->
  disk w !! p = Some c ->
  p ∉ readonly w ->
  let c' :=
    if strings.HasPrefix c (prefix options) then c
    else prefix options +:+ (if withLineEnd options then LF else "") +:+ c in
  disk (snd (injectCmd options w)) !! p = Some c'
  /\ strings.HasPrefix c' (prefix options) = true.
Proof.
  intros Hwalk Hin Hc Hrw c'.
  pose proof (injectCmd_after options w) as (_ & _ & ->). rewrite Hwalk.
  rewrite foldl_inject_lookup, bool_decide_eq_true_2 by (by apply list_elem_of_In).
  rewrite Hc. simpl. rewrite (bool_decide_eq_false_2 _ Hrw), orb_false_r.
  unfold c'. destruct (strings.HasPrefix c (prefix options)) eqn:HP; [done|].
  split; [done | apply HasPrefix_append].
Qed.

Lemma injectCmd_selected_files_get_prefix_witness :
  fst (walkMatch "testdata" "*.txt" test_world)
  = (["testdata/file_1.txt"; "testdata/inner_dir/file_2.txt";
      "testdata/inner_dir/inner_inner_dir/file_3.txt"], None)
  /\ disk (snd (injectCmd (mkOpts "testdata" "PFX" "*.txt" true) test_world))
       !! "testdata/inner_dir/file_2.txt"
     = Some ("PFX" +:+ LF +:+ "two").
Proof.
  split; [vm_compute; reflexivity|].
  apply (injectCmd_selected_files_get_prefix
           (mkOpts "testdata" "PFX" "*.txt" true) test_world
           ["testdata/file_1.txt"; "testdata/inner_dir/file_2.txt";
            "testdata/inner_dir/inner_inner_dir/file_3.txt"]
           "testdata/inner_dir/file_2.txt" "two");
    [vm_compute; reflexivity | simpl; tauto | reflexivity | set_solver].
Defined.

(** X4. After [removeCmd] with a successful walk that selects no path
    twice, a selected file that can be written and whose content was the
    prefix followed by [rest] holds [rest], without one leading line break
    when the flag is set; a selected file whose content did not start with
    the prefix keeps it. *)
Theorem removeCmd_selected_files_lose_prefix
    (options : opts) (w : World) (files : list string) (p : string) :
  fst (walkMatch (rootPath options) (pattern options) w) = (files, None) ->
  NoDup files ->
  In p files ->
  (forall rest,
     disk w !! p = Some (prefix options +:+ rest) ->
     p ∉ readonly w ->
     disk (snd (removeCmd options w)) !! p
     = Some (if withLineEnd options then without_line_break rest else rest))
  /\ (forall c,
        disk w !! p = Some c ->
        strings.HasPrefix c (prefix options) = false ->
        disk (snd (removeCmd options w)) !! p = Some c).
Proof.
  intros Hwalk Hnd Hin.
  pose proof (removeCmd_after options w) as (_ & _ & ->). rewrite Hwalk.
  rewrite foldl_remove_lookup, bool_decide_eq_true_2 by (done || by apply list_elem_of_In).
  split.
  - intros rest -> Hrw. simpl.
    by rewrite HasPrefix_append, (bool_decide_eq_false_2 _ Hrw), removed_append.
  - intros c -> HP. simpl. by rewrite HP.
Qed.

Lemma removeCmd_selected_files_lose_prefix_witness :
  fst (walkMatch "testdata" "*" test_world)
  = (["testdata/file_1.txt"; "testdata/file_4.json"; "testdata/file_with_prefix";
      "testdata/inner_dir/DONTREADME.md"; "testdata/inner_dir/file_2.txt";
      "testdata/inner_dir/inner_inner_dir/file_3.txt";
      "testdata/inner_dir/inner_inner_dir/ignore_me.json"], None)
  /\ disk (snd (removeCmd (mkOpts "testdata" "Prefix" "*" false) test_world))
       !! "testdata/file_with_prefix"
     = Some (" from file" +:+ LF).
Proof.
  split; [vm_compute; reflexivity|].
  refine (proj1 (removeCmd_selected_files_lose_prefix
                   (mkOpts "testdata" "Prefix" "*" false) test_world
                   ["testdata/file_1.txt"; "testdata/file_4.json"; "testdata/file_with_prefix";
                    "testdata/inner_dir/DONTREADME.md"; "testdata/inner_dir/file_2.txt";
                    "testdata/inner_dir/inner_inner_dir/file_3.txt";
                    "testdata/inner_dir/inner_inner_dir/ignore_me.json"]
                   "testdata/file_with_prefix" _ _ _)
            (" from file" +:+ LF) _ _).
  - vm_compute; reflexivity.
  - apply (bool_decide_unpack _). vm_compute. exact I.
  - simpl; tauto.
  - reflexivity.
  - set_solver.
Defined.

(** ** The calls of a loop, file by file *)

Section NewEvents.

Lemma new_events_extends (w w' : World) (evs : list event) :
  trace w' = trace w ++ evs -> new_events w w' = evs.
Proof. intros H. unfold new_events. rewrite H. apply drop_app_length. Qed.

Lemma new_events_add_trace (w w' : World) (evs evs' : list event) :
  trace w' = trace w ++ evs -> new_events w (add_trace evs' w') = evs ++ evs'.
Proof.
  intros H. apply new_events_extends. rewrite trace_add_trace, H.
  by rewrite app_assoc.
Qed.

Lemma new_events_via (w w1 w2 : World) (evs1 evs2 : list event) :
  trace w1 = trace w ++ evs1 -> trace w2 = trace w1 ++ evs2 ->
  new_events w w2 = evs1 ++ evs2.
Proof.
  intros H1 H2. apply new_events_extends. rewrite H2, H1. by rewrite app_assoc.
Qed.

Lemma for_range_app {A : Type} (l1 l2 : list A) (body : A -> IO unit) (w : World) :
  snd (for_range (l1 ++ l2) body w) = snd (for_range l2 body (snd (for_range l1 body w))).
Proof.
  revert w. induction l1 as [|x l1 IH]; intros w; simpl; [done|].
  unfold mbind, IO_bind. destruct (body x w) as [[] w1]. apply IH.
Qed.

Lemma injectPrefix_written (f P : string) (lineEnd : bool) (w : World) (p : string) :
  In p (writes (new_events w (snd (injectPrefix f P lineEnd w)))) ->
  p = f /\ exists c, disk w !! f = Some c /\ strings.HasPrefix c P = false.
Proof.
  destruct (disk w !! f) as [c|] eqn:H.
  - destruct (strings.HasPrefix c P) eqn:HP.
    + rewrite (injectPrefix_present f P lineEnd w c H HP).
      by rewrite (new_events_extends _ _ [ReadFileEv f]).
    + rewrite (injectPrefix_absent f P lineEnd w c H HP).
      rewrite (new_events_extends _ _
                 [ReadFileEv f; WriteFileEv f (injected P lineEnd c)]).
      * intros [<- | []]. split; [done|]. by exists c.
      * destruct (decide (f ∈ readonly w)); simpl; by rewrite <- app_assoc.
  - rewrite (injectPrefix_unreadable f P lineEnd w H).
    by rewrite (new_events_extends _ _ [ReadFileEv f]).
Qed.

Lemma removePrefix_written (f P : string) (lineEnd : bool) (w : World) (p : string) :
  In p (writes (new_events w (snd (removePrefix f P lineEnd w)))) ->
  p = f /\ exists c, disk w !! f = Some c /\ strings.HasPrefix c P = true.
Proof.
  destruct (disk w !! f) as [c|] eqn:H.
  - destruct (strings.HasPrefix c P) eqn:HP.
    + pose proof HP as Hc. apply HasPrefix_true in Hc.
      set (rest := drop_bytes (String.length P) c) in Hc.
      pose proof H as H'. rewrite Hc in H'.
      rewrite (removePrefix_present f P lineEnd w rest H').
      rewrite (new_events_extends _ _
                 [ReadFileEv f;
                  WriteFileEv f (if lineEnd then without_line_break rest else rest)]).
      * intros [<- | []]. split; [done|]. by exists c.
      * destruct (decide (f ∈ readonly w)); simpl; by rewrite <- app_assoc.
    + rewrite (removePrefix_absent f P lineEnd w c H HP).
      by rewrite (new_events_extends _ _ [ReadFileEv f]).
  - rewrite (removePrefix_unreadable f P lineEnd w H).
    by rewrite (new_events_extends _ _ [ReadFileEv f]).
Qed.

End NewEvents.

Section LoopSplit.

Variable op : string -> IO (bool * option error).
Variable error_line : string -> error -> string.
Variable skip_line : string -> string.

Hypothesis op_acts : forall f w, acts_on_one f w (snd (op f w)).

Abbreviation body := (loop_body op error_line skip_line).
Abbreviation lines := (body_lines error_line skip_line).

Lemma loop_extends (files : list string) (w : World) :
  exists evs, trace (snd (for_range files body w)) = trace w ++ evs.
Proof.
  destruct (loop_effects op error_line skip_line op_acts files w)
    as (_ & _ & evs & Ht & _).
  by exists evs.
Qed.

(** A write of the loop is a write of the call on one of its files, in
    the world the files before it have left. *)
Lemma loop_written_split (files : list string) (w : World) (p : string) :
  In p (writes (new_events w (snd (for_range files body w)))) ->
  exists l1 l2,
    files = l1 ++ p :: l2
    /\ let w1 := snd (for_range l1 body w) in
       In p (writes (new_events w1 (snd (op p w1)))).
Proof.
  revert w. induction files as [|f files IH]; intros w.
  - simpl. unfold new_events. by rewrite drop_all.
  - simpl. unfold mbind, IO_bind.
    pose proof (loop_body_run op error_line skip_line f w) as Hrun.
    destruct (body f w) as [[] w1]. simpl in Hrun.
    destruct (op_acts f w) as (_ & _ & _ & _ & _ & evs1 & Ht1 & _ & Hw1).
    destruct (loop_extends files w1) as [evs2 Ht2].
    assert (trace w1 = trace w ++ evs1 ++ lines f (fst (op f w))) as Htw1.
    { rewrite Hrun, trace_add_trace, Ht1. by rewrite app_assoc. }
    rewrite (new_events_extends w _ ((evs1 ++ lines f (fst (op f w))) ++ evs2)).
    2:{ rewrite Ht2, Htw1. by rewrite !app_assoc. }
    rewrite !writes_app, (proj2 (body_lines_quiet error_line skip_line f _)), app_nil_r.
    intros [Hp | Hp]%in_app_iff.
    + destruct Hw1 as [Hw1 | Hw1]; rewrite Hw1 in Hp; [done|].
      destruct Hp as [<- | []]. exists [], files. simpl. split; [done|].
      rewrite (new_events_extends w _ evs1 Ht1), Hw1. by left.
    + rewrite <- (new_events_extends w1 _ evs2 Ht2) in Hp.
      apply IH in Hp as (l1 & l2 & -> & Hp).
      exists (f :: l1), l2. split; [done|]. simpl. unfold mbind, IO_bind.
      pose proof (loop_body_run op error_line skip_line f w) as Hrun'.
      destruct (body f w) as [[] w1']. simpl in Hrun'.
      by rewrite Hrun', <- Hrun.
Qed.

(** The lines of the call on a file of the list are on the output. *)
Lemma loop_lines_printed (l1 l2 : list string) (f : string) (w : World) (ev : event) :
  let w1 := snd (for_range l1 body w) in
  In ev (lines f (fst (op f w1))) ->
  In ev (trace (snd (for_range (l1 ++ f :: l2) body w))).
Proof.
  intros w1 Hev. rewrite for_range_app. fold w1. simpl. unfold mbind, IO_bind.
  pose proof (loop_body_run op error_line skip_line f w1) as Hrun.
  destruct (body f w1) as [[] w2]. simpl in Hrun.
  destruct (loop_extends l2 w2) as [evs Ht]. rewrite Ht, Hrun, trace_add_trace.
  rewrite !in_app_iff. tauto.
Qed.

End LoopSplit.

(** ** The calls of a command *)

Section CommandEvents.

Variable options : opts.

(** The calls of [injectCmd] on files are those of its loop, which starts
    with the files, the access and the directories as they are. *)
Lemma injectCmd_loop (w : World) (files : list string) :
  fst (walkMatch (rootPath options) (pattern options) w) = (files, None) ->
  exists start,
    disk start = disk w /\ readonly start = readonly w
    /\ (let finish := snd (for_range files (inject_loop options) start) in
        writes (new_events w (snd (injectCmd options w)))
        = writes (new_events start finish)
        /\ forall ev, In ev (trace finish) -> In ev (trace (snd (injectCmd options w)))).
Proof.
  intros Hwalk. rewrite injectCmd_run, Hwalk. cbn [snd].
  set (start := add_trace _ w). exists start. split_and!; [done | done | | ].
  - destruct (inject_loop_effects options files start) as (_ & _ & evs & Ht & _).
    rewrite (new_events_extends start _ evs Ht).
    rewrite (new_events_via w start _ _ (evs ++ [PrintlnEv ""; PrintlnEv "Injection finished"])
               (trace_add_trace _ w)).
    2:{ rewrite trace_add_trace, Ht. by rewrite <- !app_assoc. }
    rewrite !writes_app, (proj2 (found_lines_quiet files)). simpl.
    by rewrite app_nil_r.
  - intros ev Hev. rewrite trace_add_trace. apply in_app_iff. by left.
Qed.

Lemma removeCmd_loop (w : World) (files : list string) :
  fst (walkMatch (rootPath options) (pattern options) w) = (files, None) ->
  exists start,
    disk start = disk w /\ readonly start = readonly w
    /\ (let finish := snd (for_range files (remove_loop options) start) in
        writes (new_events w (snd (removeCmd options w)))
        = writes (new_events start finish)
        /\ forall ev, In ev (trace finish) -> In ev (trace (snd (removeCmd options w)))).
Proof.
  intros Hwalk. rewrite removeCmd_run, Hwalk. cbn [snd].
  set (start := add_trace _ w). exists start. split_and!; [done | done | | ].
  - destruct (remove_loop_effects options files start) as (_ & _ & evs & Ht & _).
    rewrite (new_events_extends start _ evs Ht).
    rewrite (new_events_via w start _ _ (evs ++ [PrintlnEv ""; PrintlnEv "Removal finished"])
               (trace_add_trace _ w)).
    2:{ rewrite trace_add_trace, Ht. by rewrite <- !app_assoc. }
    rewrite !writes_app, (proj2 (found_lines_quiet files)). simpl.
    by rewrite app_nil_r.
  - intros ev Hev. rewrite trace_add_trace. apply in_app_iff. by left.
Qed.

(** A command whose walk fails makes no call on a file. *)
Lemma injectCmd_failed_walk (w : World) (files : list string) (e : error) :
  fst (walkMatch (rootPath options) (pattern options) w) = (files, Some e) ->
  writes (new_events w (snd (injectCmd options w))) = []
  /\ reads (new_events w (snd (injectCmd options w))) = [].
Proof.
  intros Hwalk. rewrite injectCmd_run, Hwalk. cbn [snd].
  by rewrite (new_events_extends w _ _ (trace_add_trace _ w)).
Qed.

Lemma removeCmd_failed_walk (w : World) (files : list string) (e : error) :
  fst (walkMatch (rootPath options) (pattern options) w) = (files, Some e) ->
  writes (new_events w (snd (removeCmd options w))) = []
  /\ reads (new_events w (snd (removeCmd options w))) = [].
Proof.
  intros Hwalk. rewrite removeCmd_run, Hwalk. cbn [snd].
  unfold new_events. by rewrite drop_all.
Qed.

End CommandEvents.

Section Changed.

Variables (P : string) (lineEnd : bool).

(** When [injectPrefix] and [removePrefix] report a change. *)
Lemma injectPrefix_changed (f : string) (w : World) :
  fst (fst (injectPrefix f P lineEnd w))
  = match disk w !! f with
    | Some c => negb (strings.HasPrefix c P) && negb (bool_decide (f ∈ readonly w))
    | None => false
    end.
Proof.
  destruct (disk w !! f) as [c|] eqn:H.
  - destruct (strings.HasPrefix c P) eqn:HP.
    + by rewrite (injectPrefix_present f P lineEnd w c H HP).
    + rewrite (injectPrefix_absent f P lineEnd w c H HP).
      destruct (decide (f ∈ readonly w)).
      * by rewrite bool_decide_eq_true_2.
      * by rewrite bool_decide_eq_false_2.
  - by rewrite (injectPrefix_unreadable f P lineEnd w H).
Qed.

Lemma removePrefix_changed (f : string) (w : World) :
  fst (fst (removePrefix f P lineEnd w))
  = match disk w !! f with
    | Some c => strings.HasPrefix c P && negb (bool_decide (f ∈ readonly w))
    | None => false
    end.
Proof.
  destruct (disk w !! f) as [c|] eqn:H.
  - destruct (strings.HasPrefix c P) eqn:HP.
    + pose proof HP as Hc. apply HasPrefix_true in Hc. rewrite Hc in H.
      rewrite (removePrefix_present f P lineEnd w _ H).
      destruct (decide (f ∈ readonly w)).
      * by rewrite bool_decide_eq_true_2.
      * by rewrite bool_decide_eq_false_2.
    + by rewrite (removePrefix_absent f P lineEnd w c H HP).
  - by rewrite (removePrefix_unreadable f P lineEnd w H).
Qed.

(** An error comes with no change. *)
Lemma injectPrefix_error_unchanged (f : string) (w : World) (e : error) :
  snd (fst (injectPrefix f P lineEnd w)) = Some e ->
  fst (fst (injectPrefix f P lineEnd w)) = false.
Proof.
  destruct (disk w !! f) as [c|] eqn:H.
  - destruct (strings.HasPrefix c P) eqn:HP.
    + by rewrite (injectPrefix_present f P lineEnd w c H HP).
    + rewrite (injectPrefix_absent f P lineEnd w c H HP).
      by destruct (decide (f ∈ readonly w)).
  - by rewrite (injectPrefix_unreadable f P lineEnd w H).
Qed.

Lemma removePrefix_error_unchanged (f : string) (w : World) (e : error) :
  snd (fst (removePrefix f P lineEnd w)) = Some e ->
  fst (fst (removePrefix f P lineEnd w)) = false.
Proof.
  rewrite removePrefix_changed.
  destruct (disk w !! f) as [c|] eqn:H; [|done].
  destruct (strings.HasPrefix c P) eqn:HP; [|done].
  apply HasPrefix_true in HP. rewrite HP in H.
  rewrite (removePrefix_present f P lineEnd w _ H).
  destruct (decide (f ∈ readonly w)); [|done].
  by rewrite bool_decide_eq_true_2.
Qed.

(** A content that does not start with the prefix, and a path that
    cannot be read, are as they were after any number of
    [remove_on_disk]. *)
Lemma foldl_remove_clean (ro : gset string) (l : list string)
    (d : gmap string string) (p : string) :
  (d !! p = None -> foldl (remove_on_disk P lineEnd ro) d l !! p = None)
  /\ (forall c, d !! p = Some c -> strings.HasPrefix c P = false ->
        foldl (remove_on_disk P lineEnd ro) d l !! p = Some c).
Proof.
  revert d. induction l as [|f l IH]; intros d; simpl; [done|].
  destruct (IH (remove_on_disk P lineEnd ro d f)) as [IH1 IH2].
  split.
  - intros Hd. apply IH1. rewrite remove_on_disk_lookup, Hd. by destruct (decide (p = f)).
  - intros c Hd HP. apply IH2; [|done].
    rewrite remove_on_disk_lookup, Hd. destruct (decide (p = f)); [|done].
    by apply removed_file_clean.
Qed.

Lemma foldl_remove_other (ro : gset string) (l : list string)
    (d : gmap string string) (p : string) :
  p ∉ l -> foldl (remove_on_disk P lineEnd ro) d l !! p = d !! p.
Proof.
  revert d. induction l as [|f l IH]; intros d Hp; simpl; [done|].
  apply not_elem_of_cons in Hp as [Hne Hp].
  rewrite IH, remove_on_disk_lookup by done. by destruct (decide (p = f)).
Qed.

Lemma foldl_inject_other (ro : gset string) (l : list string)
    (d : gmap string string) (p : string) :
  p ∉ l -> foldl (inject_on_disk P lineEnd ro) d l !! p = d !! p.
Proof. intros Hp. by rewrite foldl_inject_lookup, bool_decide_eq_false_2. Qed.

End Changed.

(** X5. Whatever the pattern, a path that the walk does not select keeps
    its content and is never written, by [injectCmd] and by [removeCmd];
    neither command changes which paths can be written, nor the
    directories. *)
Theorem commands_touch_selected_files_only (options : opts) (w : World) (p : string) :
  ~ In p (fst (fst (walkMatch (rootPath options) (pattern options) w))) ->
  (let w' := snd (injectCmd options w) in
   disk w' !! p = disk w !! p
   /\ ~ In p (writes (new_events w w'))
   /\ readonly w' = readonly w /\ dirs w' = dirs w)
  /\ (let w' := snd (removeCmd options w) in
      disk w' !! p = disk w !! p
      /\ ~ In p (writes (new_events w w'))
      /\ readonly w' = readonly w /\ dirs w' = dirs w).
Proof.
  intros Hout.
  pose proof (injectCmd_after options w) as (Hro1 & Hd1 & Hdisk1).
  pose proof (removeCmd_after options w) as (Hro2 & Hd2 & Hdisk2).
  destruct (fst (walkMatch (rootPath options) (pattern options) w))
    as [files [e|]] eqn:Hwalk; simpl in Hout.
  - destruct (injectCmd_failed_walk options w files e Hwalk) as [Hw1 _].
    destruct (removeCmd_failed_walk options w files e Hwalk) as [Hw2 _].
    cbv zeta. rewrite Hdisk1, Hdisk2, Hw1, Hw2. simpl. tauto.
  - destruct (injectCmd_loop options w files Hwalk) as (s1 & _ & _ & Hw1 & _).
    destruct (removeCmd_loop options w files Hwalk) as (s2 & _ & _ & Hw2 & _).
    destruct (inject_loop_effects options files s1) as (_ & _ & evs1 & Ht1 & _ & Hin1).
    destruct (remove_loop_effects options files s2) as (_ & _ & evs2 & Ht2 & _ & Hin2).
    cbv zeta. rewrite Hw1, Hw2, Hdisk1, Hdisk2.
    rewrite (new_events_extends s1 _ evs1 Ht1), (new_events_extends s2 _ evs2 Ht2).
    rewrite <- list_elem_of_In in Hout.
    rewrite foldl_inject_other, foldl_remove_other by done.
    split_and!; try done.
    + intros Hp. by apply Hout, list_elem_of_In, Hin1.
    + intros Hp. by apply Hout, list_elem_of_In, Hin2.
Qed.

Lemma commands_touch_selected_files_only_witness :
  ~ In "testdata/file_4.json" (fst (fst (walkMatch "testdata" "file_[1-3]*" test_world)))
  /\ disk (snd (injectCmd (mkOpts "testdata" "PFX" "file_[1-3]*" false) test_world))
       !! "testdata/file_4.json"
     = disk test_world !! "testdata/file_4.json".
Proof.
  assert (~ In "testdata/file_4.json"
            (fst (fst (walkMatch "testdata" "file_[1-3]*" test_world)))) as H.
  { vm_compute. intros [H|[H|[H|[]]]]; discriminate. }
  split; [exact H|].
  apply (commands_touch_selected_files_only
           (mkOpts "testdata" "PFX" "file_[1-3]*" false) test_world
           "testdata/file_4.json" H).
Defined.

(** X6. [injectCmd] writes only files that could be read and whose content
    did not start with the prefix when the command started; [removeCmd]
    writes only files that could be read and whose content started with
    it.  So a file that cannot be read, and a file that is already as the
    command wants it, is never written. *)
Theorem commands_write_only_files_to_change (options : opts) (w : World) (p : string) :
  (In p (writes (new_events w (snd (injectCmd options w)))) ->
   exists c, disk w !! p = Some c /\ strings.HasPrefix c (prefix options) = false)
  /\ (In p (writes (new_events w (snd (removeCmd options w)))) ->
      exists c, disk w !! p = Some c /\ strings.HasPrefix c (prefix options) = true).
Proof.
  destruct (fst (walkMatch (rootPath options) (pattern options) w))
    as [files [e|]] eqn:Hwalk.
  { destruct (injectCmd_failed_walk options w files e Hwalk) as [-> _].
    destruct (removeCmd_failed_walk options w files e Hwalk) as [-> _].
    by split. }
  split.
  - destruct (injectCmd_loop options w files Hwalk) as (s & Hd & Hro & -> & _).
    intros Hp.
    apply (loop_written_split _ _ _ (fun f w => injectPrefix_acts f _ _ w)) in Hp
      as (l1 & l2 & _ & Hp).
    apply injectPrefix_written in Hp as (_ & c' & Hc' & HP').
    pose proof (inject_loop_disk options l1 s) as (_ & _ & Hl).
    change (for_range l1 _ s) with (for_range l1 (inject_loop options) s) in Hc'.
    rewrite Hl, foldl_inject_lookup, Hd in Hc'.
    destruct (bool_decide (p ∈ l1)); [|by exists c'].
    destruct (disk w !! p) as [c|]; [|done]. exists c. split; [done|].
    simpl in Hc'. destruct (strings.HasPrefix c (prefix options)) eqn:HP; [|done].
    simpl in Hc'. congruence.
  - destruct (removeCmd_loop options w files Hwalk) as (s & Hd & Hro & -> & _).
    intros Hp.
    apply (loop_written_split _ _ _ (fun f w => removePrefix_acts f _ _ w)) in Hp
      as (l1 & l2 & _ & Hp).
    apply removePrefix_written in Hp as (_ & c' & Hc' & HP').
    pose proof (remove_loop_disk options l1 s) as (_ & _ & Hl).
    change (for_range l1 _ s) with (for_range l1 (remove_loop options) s) in Hc'.
    rewrite Hl, Hd in Hc'.
    destruct (foldl_remove_clean (prefix options) (withLineEnd options) (readonly s) l1
                (disk s) p) as [Hnone Hclean].
    rewrite Hd in Hnone, Hclean.
    destruct (disk w !! p) as [c|]; [|rewrite Hnone in Hc'; done].
    exists c. split; [done|].
    destruct (strings.HasPrefix c (prefix options)) eqn:HP; [done|].
    rewrite (Hclean c eq_refl HP) in Hc'. congruence.
Qed.

Lemma commands_write_only_files_to_change_witness :
  In "testdata/inner_dir/inner_inner_dir/file_3.txt"
     (writes (new_events faulty_world
                (snd (injectCmd (mkOpts "testdata" "PFX" "*.txt" true) faulty_world))))
  /\ exists c,
       disk faulty_world !! "testdata/inner_dir/inner_inner_dir/file_3.txt" = Some c
       /\ strings.HasPrefix c "PFX" = false.
Proof.
  assert (In "testdata/inner_dir/inner_inner_dir/file_3.txt"
            (writes (new_events faulty_world
                       (snd (injectCmd (mkOpts "testdata" "PFX" "*.txt" true) faulty_world)))))
    as H.
  { vm_compute. tauto. }
  split; [exact H|].
  exact (proj1 (commands_write_only_files_to_change
                  (mkOpts "testdata" "PFX" "*.txt" true) faulty_world
                  "testdata/inner_dir/inner_inner_dir/file_3.txt") H).
Defined.

(** X7. When the call on a selected file reports no change, the line that
    says so is on the output: [already has the prefix] for [injectCmd],
    [did not have the prefix] for [removeCmd].  That is also so when the
    call has failed, so a file that could not be read or written is
    reported with its error and with that line. *)
Theorem unchanged_files_are_reported (options : opts) (w : World) (files : list string)
    (f : string) :
  fst (walkMatch (rootPath options) (pattern options) w) = (files, None) ->
  In f files ->
  (fst (fst (injectPrefix f (prefix options) (withLineEnd options) w)) = false ->
   In (PrintlnEv ("File " +:+ f +:+ " already has the prefix"))
      (trace (snd (injectCmd options w))))
  /\ (fst (fst (removePrefix f (prefix options) (withLineEnd options) w)) = false ->
      In (PrintlnEv ("File " +:+ f +:+ " did not have the prefix"))
         (trace (snd (removeCmd options w))))
  /\ (forall e,
        snd (fst (injectPrefix f (prefix options) (withLineEnd options) w)) = Some e ->
        In (PrintlnEv ("File " +:+ f +:+ " already has the prefix"))
           (trace (snd (injectCmd options w))))
  /\ (forall e,
        snd (fst (removePrefix f (prefix options) (withLineEnd options) w)) = Some e ->
        In (PrintlnEv ("File " +:+ f +:+ " did not have the prefix"))
           (trace (snd (removeCmd options w)))).
Proof.
  intros Hwalk Hin.
  assert (fst (fst (injectPrefix f (prefix options) (withLineEnd options) w)) = false ->
          In (PrintlnEv ("File " +:+ f +:+ " already has the prefix"))
             (trace (snd (injectCmd options w)))) as Hinject.
  { intros Hunch.
    destruct (injectCmd_loop options w files Hwalk) as (s & Hd & Hro & _ & Hsub).
    apply Hsub. apply in_split in Hin as (l1 & l2 & ->).
    apply (loop_lines_printed _ _ _ (fun f w => injectPrefix_acts f _ _ w)).
    unfold body_lines. apply in_app_iff. right.
    pose proof (inject_loop_disk options l1 s) as (Hro1 & _ & Hl).
    change (for_range l1 _ s) with (for_range l1 (inject_loop options) s).
    rewrite injectPrefix_changed, Hl, Hro1, foldl_inject_lookup, Hd, Hro.
    rewrite injectPrefix_changed in Hunch.
    assert (match (if bool_decide (f ∈ l1)
                   then injected_file (prefix options) (withLineEnd options)
                          (readonly w) f (disk w !! f)
                   else disk w !! f) with
            | Some c => negb (strings.HasPrefix c (prefix options))
                        && negb (bool_decide (f ∈ readonly w))
            | None => false
            end = false) as ->; [|by left].
    destruct (bool_decide (f ∈ l1)); [|done].
    destruct (disk w !! f) as [c|]; [|done]. simpl.
    destruct (strings.HasPrefix c (prefix options)) eqn:HP; simpl; [by rewrite HP|].
    simpl in Hunch. apply negb_false_iff in Hunch. rewrite Hunch. simpl.
    apply andb_false_r. }
  assert (fst (fst (removePrefix f (prefix options) (withLineEnd options) w)) = false ->
          In (PrintlnEv ("File " +:+ f +:+ " did not have the prefix"))
             (trace (snd (removeCmd options w)))) as Hremove.
  { intros Hunch.
    destruct (removeCmd_loop options w files Hwalk) as (s & Hd & Hro & _ & Hsub).
    apply Hsub. apply in_split in Hin as (l1 & l2 & ->).
    apply (loop_lines_printed _ _ _ (fun f w => removePrefix_acts f _ _ w)).
    unfold body_lines. apply in_app_iff. right.
    pose proof (remove_loop_disk options l1 s) as (Hro1 & _ & Hl).
    change (for_range l1 _ s) with (for_range l1 (remove_loop options) s).
    rewrite removePrefix_changed, Hl, Hro1, Hd, Hro.
    rewrite removePrefix_changed in Hunch.
    destruct (foldl_remove_clean (prefix options) (withLineEnd options) (readonly w) l1
                (disk w) f) as [Hnone Hclean].
    assert (match foldl (remove_on_disk (prefix options) (withLineEnd options) (readonly w))
                    (disk w) l1 !! f with
            | Some c => strings.HasPrefix c (prefix options)
                        && negb (bool_decide (f ∈ readonly w))
            | None => false
            end = false) as ->; [|by left].
    destruct (disk w !! f) as [c|]; [|by rewrite Hnone].
    destruct (strings.HasPrefix c (prefix options)) eqn:HP.
    - simpl in Hunch. rewrite Hunch. destruct (foldl _ _ _ !! f); [|done].
      apply andb_false_r.
    - by rewrite (Hclean c eq_refl HP), HP. }
  split_and!; [exact Hinject | exact Hremove | |].
  - intros e He. by eapply Hinject, injectPrefix_error_unchanged.
  - intros e He. by eapply Hremove, removePrefix_error_unchanged.
Qed.

Lemma unchanged_files_are_reported_witness :
  fst (walkMatch "testdata" "*.txt" faulty_world)
  = (["testdata/file_1.txt"; "testdata/inner_dir/file_2.txt";
      "testdata/inner_dir/inner_inner_dir/file_3.txt"], None)
  /\ In (PrintlnEv ("File " +:+ "testdata/inner_dir/file_2.txt"
                    +:+ " already has the prefix"))
        (trace (snd (injectCmd (mkOpts "testdata" "PFX" "*.txt" true) faulty_world))).
Proof.
  assert (fst (walkMatch "testdata" "*.txt" faulty_world)
          = (["testdata/file_1.txt"; "testdata/inner_dir/file_2.txt";
              "testdata/inner_dir/inner_inner_dir/file_3.txt"], None)) as Hwalk.
  { vm_compute. reflexivity. }
  split; [exact Hwalk|].
  refine (proj1 (unchanged_files_are_reported
                   (mkOpts "testdata" "PFX" "*.txt" true) faulty_world _
                   "testdata/inner_dir/file_2.txt" Hwalk _) _).
  - simpl. tauto.
  - vm_compute. reflexivity.
Defined.

(** ** The walk, path by path *)

Section BaseName.




End BaseName.

Section WalkPaths.

Variable pattern : string.

Lemma file_paths_Dir (path : string) (readable : bool) (names : list (string * node)) :
  file_paths path (Dir readable names)
  = flat_map (fun e => file_paths (filepath.Join path (fst e)) (snd e)) names.
Proof. simpl. induction names as [|[name child] names IH]; simpl; by rewrite ?IH. Qed.


(** The paths of the tree are its entries that are not directories. *)
Lemma file_paths_entry (info : node) :
  forall path p, In p (file_paths path info) <-> entry path info p File.
Proof.
  induction info as [|readable names IH] using node_nested_ind; intros path p.
  - simpl. rewrite entry_File. split; [intros [<-|[]]; done | intros [-> _]; by left].
  - rewrite file_paths_Dir, entry_Dir_File, in_flat_map. split.
    + intros ([name child] & Hin & Hp). exists name, child. split; [done|].
      rewrite Forall_forall in IH. by apply (IH _ (proj2 (list_elem_of_In _ _) Hin)).
    + intros (name & child & Hin & He). exists (name, child). split; [done|].
      rewrite Forall_forall in IH. by apply (IH _ (proj2 (list_elem_of_In _ _) Hin)).
Qed.




End WalkPaths.

Section StarTotal.





End StarTotal.

Section WalkMatchPaths.



End WalkMatchPaths.









(** ** The errors of option parsing *)

Section ParseErrors.

Variables (cmd : FlagSet) (w : World).


Lemma parseOpts_error_cases (args : list string) (e : error) :
  snd (fst (parseOpts cmd args w)) = Some e ->
  fst (fst (parseOpts cmd args w)) = mkOpts "" "" "" false
  /\ ((hd "" args = "" /\ e = ErrorString "requires 1 argument [ROOT_PATH]")
      \/ (hd "" args <> "" /\ flag_prefix cmd = "" /\ flag_prefix_file cmd <> ""
          /\ disk w !! flag_prefix_file cmd = None
          /\ e = Wrapped
                   (Wrapped
                      (PathError "open" (flag_prefix_file cmd) "no such file or directory")
                      "failed to read file content")
                   "failed to load content of prefix file")
      \/ (hd "" args <> "" /\ flag_prefix cmd = ""
          /\ (flag_prefix_file cmd = "" \/ disk w !! flag_prefix_file cmd = Some "")
          /\ e = ErrorString "prefix not provided, specify --prefix or --prefix-file")).
Proof.
  destruct args as [|path args].
  { simpl. intros [= <-]. split; [done|]. by left. }
  destruct (String.eqb path "") eqn:Hpath.
  { apply String.eqb_eq in Hpath as ->. simpl. intros [= <-]. split; [done|]. by left. }
  unfold parseOpts. rewrite Hpath. apply String.eqb_neq in Hpath.
  unfold loadFile, mbind, IO_bind, mret, IO_ret, os.ReadFile, fmt.Errorf. simpl.
  destruct (String.eqb (flag_prefix cmd) "") eqn:Hp.
  - apply String.eqb_eq in Hp.
    destruct (String.eqb (flag_prefix_file cmd) "") eqn:Hf; simpl.
    + apply String.eqb_eq in Hf. intros [= <-]. split; [done|]. right. right. tauto.
    + apply String.eqb_neq in Hf.
      destruct (disk w !! flag_prefix_file cmd) as [c|] eqn:Hd; simpl.
      * destruct (String.eqb c "") eqn:Hc; simpl; [|discriminate].
        apply String.eqb_eq in Hc as ->. intros [= <-]. split; [done|].
        right. right. tauto.
      * intros [= <-]. split; [done|]. right. left. tauto.
  - simpl. rewrite Hp. discriminate.
Qed.

End ParseErrors.



(** ** A run that finds no file *)

(** X13. When the walk succeeds and finds no file, both commands return
    [nil] and leave every file as it is; the output of [injectCmd] is its
    two heading lines ([Println] puts a second space after [Prefix] and
    [Pattern]), the line [No files matching the pattern found] and the
    lines around the empty loop, that of [removeCmd] the same without the
    heading. *)
Theorem commands_without_match (options : opts) (w : World) :
  fst (walkMatch (rootPath options) (pattern options) w) = ([], None) ->
  injectCmd options w
  = (None,
     add_trace
       [PrintlnEv ("Prefix " +:+ " " +:+ prefix options);
        PrintlnEv ("Pattern " +:+ " " +:+ pattern options);
        PrintlnEv "No files matching the pattern found";
        PrintlnEv ""; PrintlnEv "Starting injection"; PrintlnEv "";
        PrintlnEv ""; PrintlnEv "Injection finished"] w)
  /\ removeCmd options w
     = (None,
        add_trace
          [PrintlnEv "No files matching the pattern found";
           PrintlnEv ""; PrintlnEv "Starting removal"; PrintlnEv "";
           PrintlnEv ""; PrintlnEv "Removal finished"] w).
Proof.
  intros Hwalk. rewrite injectCmd_run, removeCmd_run, Hwalk. simpl.
  by rewrite !add_trace_add_trace.
Qed.

Lemma commands_without_match_witness :
  removeCmd (mkOpts "testdata" "PFX" "*.go" false) test_world
  = (None,
     add_trace
       [PrintlnEv "No files matching the pattern found";
        PrintlnEv ""; PrintlnEv "Starting removal"; PrintlnEv "";
        PrintlnEv ""; PrintlnEv "Removal finished"] test_world).
Proof.
  refine (proj2 (commands_without_match (mkOpts "testdata" "PFX" "*.go" false)
                   test_world _)).
  vm_compute. reflexivity.
Defined.

(** ** The prefix file among the selected files *)

Section PrefixFile.

Variables (P : string) (lineEnd : bool) (ro : gset string) (F : string).

Hypothesis P_not_empty : P <> "".
Hypothesis F_writable : F ∉ ro.

Lemma removed_whole : removed P lineEnd P = "".
Proof.
  pose proof (removed_append P lineEnd "") as H. rewrite append_nil_r in H.
  rewrite H. by destruct lineEnd.
Qed.

Lemma HasPrefix_refl : strings.HasPrefix P P = true.
Proof.
  pose proof (HasPrefix_append P "") as H. by rewrite append_nil_r in H.
Qed.

Lemma HasPrefix_of_empty : strings.HasPrefix "" P = false.
Proof. by destruct P. Qed.

Lemma foldl_remove_empties (l : list string) (d : gmap string string) :
  F ∈ l -> d !! F = Some P ->
  foldl (remove_on_disk P lineEnd ro) d l !! F = Some "".
Proof.
  revert d. induction l as [|f l IH]; intros d Hin Hd; [by apply elem_of_nil in Hin|].
  simpl. destruct (decide (F = f)) as [<-|Hne].
  - apply (proj2 (foldl_remove_clean P lineEnd ro l _ F)); [|apply HasPrefix_of_empty].
    rewrite remove_on_disk_lookup, Hd. destruct (decide (F = F)); [|done]. simpl.
    rewrite HasPrefix_refl, (bool_decide_eq_false_2 _ F_writable). simpl.
    by rewrite removed_whole.
  - apply IH.
    + apply elem_of_cons in Hin as [?|?]; [congruence | done].
    + rewrite remove_on_disk_lookup. by destruct (decide (F = f)).
Qed.

Lemma foldl_inject_keeps (l : list string) (d : gmap string string) :
  d !! F = Some P -> foldl (inject_on_disk P lineEnd ro) d l !! F = Some P.
Proof.
  intros Hd. rewrite foldl_inject_lookup, Hd. simpl. rewrite HasPrefix_refl. simpl.
  by destruct (bool_decide (F ∈ l)).
Qed.

End PrefixFile.

(** X14. When the prefix comes from a prefix file that the pattern selects
    (with the default pattern [*], any prefix file below the root): the
    [inject] command leaves the prefix file as it is, since its content
    starts with the prefix; the [remove] command empties it, and the next
    run of either command with the same flags fails with [prefix not
    provided]. *)
Theorem prefix_file_among_selected (cmd : FlagSet) (w : World) (root : string)
    (rest files : list string) (c : string) :
  root <> "" ->
  flag_prefix cmd = "" ->
  flag_prefix_file cmd <> "" ->
  disk w !! flag_prefix_file cmd = Some c ->
  c <> "" ->
  flag_prefix_file cmd ∉ readonly w ->
  fst (walkMatch root (flag_pattern cmd) w) = (files, None) ->
  In (flag_prefix_file cmd) files ->
  disk (snd (injectCommand_RunE cmd (root :: rest) w)) !! flag_prefix_file cmd = Some c
  /\ (let w' := snd (removeCommand_RunE cmd (root :: rest) w) in
      let failure :=
        Some (ErrorString "prefix not provided, specify --prefix or --prefix-file") in
      disk w' !! flag_prefix_file cmd = Some ""
      /\ fst (injectCommand_RunE cmd (root :: rest) w') = failure
      /\ fst (removeCommand_RunE cmd (root :: rest) w') = failure).
Proof.
  intros Hr Hp Hf Hd Hc Hrw Hwalk Hin.
  set (F := flag_prefix_file cmd) in *.
  set (options := mkOpts root c (flag_pattern cmd) (flag_with_line_end cmd)).
  pose proof (parseOpts_prefix_file cmd w root rest c Hr Hp Hf Hd Hc) as Hparse.
  fold options in Hparse.
  assert (fst (walkMatch (rootPath options) (pattern options) (log (ReadFileEv F) w))
          = (files, None)) as Hwalk1.
  { by rewrite (walkMatch_dirs _ _ _ w). }
  apply list_elem_of_In in Hin.
  split.
  - unfold injectCommand_RunE, mbind, IO_bind. rewrite Hparse. cbv beta iota zeta. fold F.
    pose proof (injectCmd_after options (log (ReadFileEv F) w)) as (_ & _ & Hdisk).
    rewrite Hwalk1 in Hdisk. simpl in Hdisk. rewrite Hdisk.
    by apply foldl_inject_keeps.
  - assert (disk (snd (removeCommand_RunE cmd (root :: rest) w)) !! F = Some "") as Hempty.
    { unfold removeCommand_RunE, mbind, IO_bind. rewrite Hparse. cbv beta iota zeta. fold F.
      pose proof (removeCmd_after options (log (ReadFileEv F) w)) as (_ & _ & Hdisk).
      rewrite Hwalk1 in Hdisk. simpl in Hdisk. rewrite Hdisk.
      by apply foldl_remove_empties. }
    cbv zeta. split; [exact Hempty|].
    set (w' := snd (removeCommand_RunE cmd (root :: rest) w)) in *.
    destruct (parseOpts_no_prefix cmd w' (root :: rest) Hp) as [e He]; [tauto|].
    destruct (parseOpts_error_cases cmd w' (root :: rest) e He)
      as [_ [[Hroot _] | [(_ & _ & _ & Hnone & _) | (_ & _ & _ & ->)]]].
    + done.
    + fold F in Hnone. congruence.
    + unfold injectCommand_RunE, removeCommand_RunE, mbind, IO_bind.
      destruct (parseOpts cmd (root :: rest) w') as [[o err] w2]. simpl in He. subst err.
      by split.
Qed.

Lemma prefix_file_among_selected_witness :
  disk (snd (removeCommand_RunE (mkFlags "*" "" "testdata/file_with_prefix" false)
               ["testdata"] test_world))
    !! "testdata/file_with_prefix"
  = Some "".
Proof.
  refine (proj1 (proj2 (prefix_file_among_selected
                          (mkFlags "*" "" "testdata/file_with_prefix" false)
                          test_world "testdata" []
                          (fst (fst (walkMatch "testdata" "*" test_world)))
                          ("Prefix from file" +:+ LF) _ _ _ _ _ _ _ _))).
  - discriminate.
  - reflexivity.
  - discriminate.
  - reflexivity.
  - discriminate.
  - set_solver.
  - vm_compute. reflexivity.
  - vm_compute. tauto.
Defined.

(** ** The writes of a command, in order *)

Lemma filter_bool_ext {A : Type} (g h : A -> bool) (l : list A) :
  (forall x, x ∈ l -> g x = h x) ->
  filter (fun x => g x) l = filter (fun x => h x) l.
Proof.
  induction l as [|a l IH]; intros H; [done|].
  rewrite !filter_cons, (H a), IH; [done | | by left].
  intros x Hx. apply H. by right.
Qed.

Section LoopWrites.

Variable op : string -> IO (bool * option error).
Variable error_line : string -> error -> string.
Variable skip_line : string -> string.
Variable need : gmap string string -> string -> bool.

Hypothesis op_acts : forall f w, acts_on_one f w (snd (op f w)).
Hypothesis op_writes :
  forall f w, writes (new_events w (snd (op f w))) = if need (disk w) f then [f] else [].
Hypothesis need_local : forall d d' f, d !! f = d' !! f -> need d f = need d' f.

Lemma loop_writes (files : list string) (w : World) :
  NoDup files ->
  writes (new_events w (snd (for_range files (loop_body op error_line skip_line) w)))
  = filter (fun f => need (disk w) f) files.
Proof.
  intros Hnd. revert w. induction Hnd as [|f files Hf Hnd IH]; intros w.
  - simpl. unfold new_events. by rewrite drop_all.
  - cbn [for_range]. unfold mbind at 1, IO_bind at 1.
    pose proof (loop_body_run op error_line skip_line f w) as Hrun.
    destruct (loop_body op error_line skip_line f w) as [[] w1] eqn:Hbody.
    cbn [snd] in Hrun.
    destruct (op_acts f w) as (_ & _ & Hother & _ & _ & evs & Ht & _).
    destruct (loop_extends op error_line skip_line op_acts files w1) as [evs2 Ht2].
    assert (trace w1 = trace w ++ (evs ++ body_lines error_line skip_line f (fst (op f w))))
      as Ht1.
    { rewrite Hrun, trace_add_trace, Ht. by rewrite app_assoc. }
    rewrite (new_events_via w w1 _ _ _ Ht1 Ht2), !writes_app.
    rewrite (proj2 (body_lines_quiet error_line skip_line f (fst (op f w)))), app_nil_r.
    rewrite <- (new_events_extends w1 _ evs2 Ht2), IH.
    rewrite <- (new_events_extends w _ evs Ht), op_writes.
    assert (filter (fun f0 => need (disk w1) f0) files
            = filter (fun f0 => need (disk w) f0) files) as ->.
    { apply filter_bool_ext. intros p Hp.
      apply need_local. rewrite Hrun. simpl. apply Hother. intros ->. done. }
    rewrite filter_cons. by destruct (need (disk w) f).
Qed.

End LoopWrites.

Section MutatorWrites.

Variables (P : string) (lineEnd : bool).

Lemma injectPrefix_writes (f : string) (w : World) :
  writes (new_events w (snd (injectPrefix f P lineEnd w)))
  = if has_no_prefix P (disk w) f then [f] else [].
Proof.
  unfold has_no_prefix. destruct (disk w !! f) as [c|] eqn:H.
  - destruct (strings.HasPrefix c P) eqn:HP.
    + rewrite (injectPrefix_present f P lineEnd w c H HP).
      by rewrite (new_events_extends _ _ [ReadFileEv f]).
    + rewrite (injectPrefix_absent f P lineEnd w c H HP).
      destruct (decide (f ∈ readonly w)); simpl;
        by rewrite (new_events_extends _ _ [ReadFileEv f; WriteFileEv f _])
          by (simpl; by rewrite <- app_assoc).
  - rewrite (injectPrefix_unreadable f P lineEnd w H).
    by rewrite (new_events_extends _ _ [ReadFileEv f]).
Qed.

Lemma removePrefix_writes (f : string) (w : World) :
  writes (new_events w (snd (removePrefix f P lineEnd w)))
  = if has_prefix P (disk w) f then [f] else [].
Proof.
  unfold has_prefix. destruct (disk w !! f) as [c|] eqn:H.
  - destruct (strings.HasPrefix c P) eqn:HP.
    + pose proof HP as Hc. apply HasPrefix_true in Hc.
      revert H. rewrite Hc. intros H.
      rewrite (removePrefix_present f P lineEnd w _ H).
      destruct (decide (f ∈ readonly w)); simpl;
        by rewrite (new_events_extends _ _ [ReadFileEv f; WriteFileEv f _])
          by (simpl; by rewrite <- app_assoc).
    + rewrite (removePrefix_absent f P lineEnd w c H HP).
      by rewrite (new_events_extends _ _ [ReadFileEv f]).
  - rewrite (removePrefix_unreadable f P lineEnd w H).
    by rewrite (new_events_extends _ _ [ReadFileEv f]).
Qed.

End MutatorWrites.

(** X15. When the walk returns each path once, [injectCmd] calls
    [WriteFile] once for each selected file that can be read and does not
    start with the prefix, [removeCmd] once for each that can be read and
    starts with it, in the order of the walk, and neither makes any other
    call of [WriteFile]. *)
Theorem commands_write_once_in_order (options : opts) (w : World) (files : list string) :
  fst (walkMatch (rootPath options) (pattern options) w) = (files, None) ->
  NoDup files ->
  writes (new_events w (snd (injectCmd options w)))
  = filter (fun f => has_no_prefix (prefix options) (disk w) f) files
  /\ writes (new_events w (snd (removeCmd options w)))
     = filter (fun f => has_prefix (prefix options) (disk w) f) files.
Proof.
  intros Hwalk Hnd. split.
  - destruct (injectCmd_loop options w files Hwalk) as (s & Hd & _ & -> & _).
    rewrite <- Hd. unfold inject_loop.
    apply (loop_writes _ _ _ (has_no_prefix (prefix options))); [| | |done].
    + intros f w0. apply injectPrefix_acts.
    + intros f w0. apply injectPrefix_writes.
    + intros d d' f H. unfold has_no_prefix. by rewrite H.
  - destruct (removeCmd_loop options w files Hwalk) as (s & Hd & _ & -> & _).
    rewrite <- Hd. unfold remove_loop.
    apply (loop_writes _ _ _ (has_prefix (prefix options))); [| | |done].
    + intros f w0. apply removePrefix_acts.
    + intros f w0. apply removePrefix_writes.
    + intros d d' f H. unfold has_prefix. by rewrite H.
Qed.

Lemma commands_write_once_in_order_witness :
  writes (new_events test_world
            (snd (removeCmd (mkOpts "testdata" "Prefix" "*" false) test_world)))
  = filter (fun f => has_prefix "Prefix" (disk test_world) f)
      ["testdata/file_1.txt"; "testdata/file_4.json"; "testdata/file_with_prefix";
       "testdata/inner_dir/DONTREADME.md"; "testdata/inner_dir/file_2.txt";
       "testdata/inner_dir/inner_inner_dir/file_3.txt";
       "testdata/inner_dir/inner_inner_dir/ignore_me.json"].
Proof.
  refine (proj2 (commands_write_once_in_order
                   (mkOpts "testdata" "Prefix" "*" false) test_world _ _ _)).
  - vm_compute; reflexivity.
  - apply (bool_decide_unpack _). vm_compute. exact I.
Defined.
